(** * embykeeper.telechecker: update dispatcher, session pool and relay requests

    A shallow embedding of four pieces of [embykeeper/telechecker]:

    - [Dispatcher] ([tele.py]): the ordered, group-based update dispatcher;
    - [ClientsSession] ([tele.py]): the reference-counted pool of logged-in
      clients with its watchdog;
    - [Link.post] ([link.py]): the request/response exchange with the relay
      bot, with cache, retries and transcript cleanup, and the requests built
      on it ([ocr], [send_log], [send_msg], [captcha], [captcha_url], [auth]);
    - [send_message] ([messager/_base.py]): sending through a session, with
      its retries.

    Coroutines are modelled by their atomic sections: asyncio runs one task at
    a time and switches tasks only at an [await] that really suspends, so the
    code between two suspension points is one step of the model.  What other
    tasks do during a suspension is given by an explicit schedule (dispatcher),
    an event list (pool) or a per-attempt environment (relay). *)

From stdpp Require Import gmap strings list sorting pretty.
From Stdlib Require Import ZArith Lia.

Local Open Scope Z_scope.

(** ** Dispatcher (tele.py, class Dispatcher) *)

Module Dispatcher.

(** The platform objects are opaque to the dispatcher: an update, and the
    [users] and [chats] dictionaries that travel with it in a queue packet. *)
Definition update := nat.

Record packet := Packet { pkt_update : update; pkt_users : nat; pkt_chats : nat }.

(** [isinstance(handler, events.NewMessage.Event)], [isinstance(handler,
    events.Raw)], or neither. *)
Inductive handler_kind := NewMessageEvent | Raw | Unrecognised.

(** [await handler.filter(update)]: a truthy value, a falsy value, or an
    exception. *)
Inductive filter_outcome := FilterTruthy | FilterFalsy | FilterRaises.

(** What awaiting the callback does: it returns, raises
    [events.StopPropagation], raises another [Exception], or the worker task is
    cancelled while it waits ([asyncio.CancelledError] is not an
    [Exception]). *)
Inductive callback_outcome :=
  CallbackReturns | CallbackStopPropagation | CallbackRaises | CallbackCancelled.

(** The arguments built for the callback: [(update,)] or
    [(update, users, chats)]. *)
Inductive callback_args :=
  | ArgsUpdate (u : update)
  | ArgsRaw (u : update) (users chats : nat).

(** A handler object.  [hid] is the object's identity ([list.remove] compares
    handlers with [==], which is identity for these objects). *)
Record handler := Handler {
  hid : nat;
  kind : handler_kind;
  filter : update → filter_outcome;
  callback : callback_args → callback_outcome
}.

Definition same_handler (a b : handler) : bool := Nat.eqb (hid a) (hid b).

(** [self.groups]: a dictionary from group number to handler list whose
    iteration order is its insertion order, hence an association list. *)
Definition groups_t := list (Z * list handler).

Fixpoint dict_get (g : Z) (d : groups_t) : option (list handler) :=
  match d with
  | [] => None
  | (k, hs) :: d' => if Z.eqb k g then Some hs else dict_get g d'
  end.

Definition dict_mem (g : Z) (d : groups_t) : bool :=
  match dict_get g d with Some _ => true | None => false end.

(** In-place update of the list stored under [g]. *)
Fixpoint dict_alter (f : list handler → list handler) (g : Z) (d : groups_t) : groups_t :=
  match d with
  | [] => []
  | (k, hs) :: d' =>
      if Z.eqb k g then (k, f hs) :: d' else (k, hs) :: dict_alter f g d'
  end.

(** [sorted(self.groups.items())]: items are compared by key (keys of a
    dictionary are distinct, so the comparison never reaches the lists). *)
Definition item_le (a b : Z * list handler) : Prop := a.1 ≤ b.1.

#[local] Instance item_le_dec a b : Decision (item_le a b).
Proof. unfold item_le. apply _. Defined.

Definition sorted_items (d : groups_t) : groups_t := merge_sort item_le d.

(** [list.remove(x)]: delete the first element equal to [x]. *)
Fixpoint list_remove (h : handler) (hs : list handler) : list handler :=
  match hs with
  | [] => []
  | x :: hs' => if same_handler x h then hs' else x :: list_remove h hs'
  end.

Definition list_mem (h : handler) (hs : list handler) : bool :=
  existsb (λ x, same_handler x h) hs.

(** Body of the task created by [add_handler] (run under [self.mutex]). *)
Definition add_handler (h : handler) (group : Z) (groups : groups_t) : groups_t :=
  let groups1 :=
    if dict_mem group groups then groups
    else sorted_items (groups ++ [(group, [])]) in
  dict_alter (λ hs, hs ++ [h]) group groups1.

Inductive task_outcome := TaskDone | TaskValueError.

(** Body of the task created by [remove_handler]: [ValueError] when the group
    does not exist or the handler is not in it; the registry is then
    unchanged. *)
Definition remove_handler (h : handler) (group : Z) (groups : groups_t)
  : groups_t * task_outcome :=
  match dict_get group groups with
  | None => (groups, TaskValueError)
  | Some hs =>
      if list_mem h hs then (dict_alter (list_remove h) group groups, TaskDone)
      else (groups, TaskValueError)
  end.

(** A registration task, as the event loop runs it. *)
Inductive registration :=
  | AddHandler (h : handler) (group : Z)
  | RemoveHandler (h : handler) (group : Z).

Definition run_registration (r : registration) (groups : groups_t) : groups_t :=
  match r with
  | AddHandler h g => add_handler h g groups
  | RemoveHandler h g => (remove_handler h g groups).1
  end.

Definition run_registrations (rs : list registration) (groups : groups_t) : groups_t :=
  fold_left (λ d r, run_registration r d) rs groups.

(** What the worker logs. *)
Inductive log_entry :=
  | LogFilterWarning (h : handler)
  | LogCallbackError (h : handler).

(** What one can observe of a worker: the packets it takes, the handlers whose
    loop body it enters, the filters it evaluates, the callbacks it invokes. *)
Inductive event :=
  | Dequeued (p : packet)
  | Visited (h : handler)
  | Invoked (h : handler) (args : callback_args).

(** The dispatcher together with the tasks around it.  [groups] is the live
    registry [self.groups]; [schedule] lists, for each coming suspension point
    of the worker, the registration tasks that the event loop runs while the
    worker is suspended there. *)
Record state := State {
  groups : groups_t;
  schedule : list (list registration);
  trace : list event;
  log : list log_entry
}.

Definition emit (e : event) (st : state) : state :=
  State (groups st) (schedule st) (trace st ++ [e]) (log st).

Definition write_log (l : log_entry) (st : state) : state :=
  State (groups st) (schedule st) (trace st) (log st ++ [l]).

(** A suspension point of the worker: the tasks scheduled there run, each
    under the mutex, on the live registry. *)
Definition await (st : state) : state :=
  match schedule st with
  | [] => st
  | rs :: rest => State (run_registrations rs (groups st)) rest (trace st) (log st)
  end.

(** How the inner [for handler in group] loop ends. *)
Inductive group_exit :=
  | GroupExhausted        (* the loop's [else: continue] *)
  | GroupBreak            (* [break] after a callback *)
  | GroupStopPropagation  (* [events.StopPropagation] re-raised *)
  | GroupCancelled.

Definition invoke (h : handler) (args : callback_args) (st : state)
  : group_exit * state :=
  let st1 := await (emit (Invoked h args) st) in
  match callback h args with
  | CallbackReturns => (GroupBreak, st1)
  | CallbackStopPropagation => (GroupStopPropagation, st1)
  | CallbackRaises => (GroupBreak, write_log (LogCallbackError h) st1)
  | CallbackCancelled => (GroupCancelled, st1)
  end.

Fixpoint run_group (p : packet) (group : list handler) (st : state)
  : group_exit * state :=
  match group with
  | [] => (GroupExhausted, st)
  | h :: rest =>
      let st0 := emit (Visited h) st in
      match kind h with
      | NewMessageEvent =>
          let st1 := await st0 in
          match filter h (pkt_update p) with
          | FilterTruthy => invoke h (ArgsUpdate (pkt_update p)) st1
          | FilterFalsy => run_group p rest st1
          | FilterRaises => run_group p rest (write_log (LogFilterWarning h) st1)
          end
      | Raw => invoke h (ArgsRaw (pkt_update p) (pkt_users p) (pkt_chats p)) st0
      | Unrecognised => run_group p rest st0
      end
  end.

(** How the pass over one packet ends. *)
Inductive pass_exit := PassDone | PassCancelled.

Fixpoint run_groups (p : packet) (snapshot : list (list handler)) (st : state)
  : pass_exit * state :=
  match snapshot with
  | [] => (PassDone, st)
  | group :: rest =>
      match run_group p group st with
      | (GroupExhausted, st') => run_groups p rest st'
      | (GroupBreak, st') => (PassDone, st')
      | (GroupStopPropagation, st') => (PassDone, st')
      | (GroupCancelled, st') => (PassCancelled, st')
      end
  end.

(** One iteration of the worker's [while True] on a packet: the copy
    [{i: g[:] for i, g in self.groups.items()}] under the mutex, then the
    loops over the copy. *)
Definition dispatch (p : packet) (st : state) : pass_exit * state :=
  let snapshot := map snd (groups st) in
  run_groups p snapshot st.

Inductive worker_exit := WorkerWaiting | WorkerStopped | WorkerCancelled.

(** [handler_worker] on the packets that are put on the queue, in order;
    [None] is the stop sentinel.  When the queue stays empty the worker stays
    suspended in [queue.get()].  Taking a packet is a suspension point: the
    registrations scheduled there land before the copy is made. *)
Fixpoint handler_worker (queue : list (option packet)) (st : state)
  : worker_exit * state :=
  match queue with
  | [] => (WorkerWaiting, st)
  | None :: _ => (WorkerStopped, st)
  | Some p :: queue' =>
      let st0 := emit (Dequeued p) (await st) in
      match dispatch p st0 with
      | (PassDone, st') => handler_worker queue' st'
      | (PassCancelled, st') => (WorkerCancelled, st')
      end
  end.

(** *** Vocabulary for the dispatcher's properties *)

(** The handler's predicate holds of the packet: the worker builds arguments
    for it. *)
Definition accepts (p : packet) (h : handler) : bool :=
  match kind h with
  | NewMessageEvent =>
      match filter h (pkt_update p) with FilterTruthy => true | _ => false end
  | Raw => true
  | Unrecognised => false
  end.

Definition args_for (p : packet) (h : handler) : callback_args :=
  match kind h with
  | Raw => ArgsRaw (pkt_update p) (pkt_users p) (pkt_chats p)
  | _ => ArgsUpdate (pkt_update p)
  end.

(** The handlers of a registry in the order of its groups, each group in the
    order of its list. *)
Definition traversal (d : groups_t) : list handler := concat (map snd d).

(** The handlers in front of the first one that accepts the packet. *)
Fixpoint passed_over (p : packet) (hs : list handler) : list handler :=
  match hs with
  | [] => []
  | h :: hs' => if accepts p h then [] else h :: passed_over p hs'
  end.

Definition first_accepting (p : packet) (hs : list handler) : option handler :=
  List.find (accepts p) hs.

(** What a pass over these handlers should show: every handler in front of the
    first accepting one is looked at, that one is looked at and called, and
    nothing after it. *)
Definition delivery (p : packet) (hs : list handler) : list event :=
  map Visited (passed_over p hs) ++
  match first_accepting p hs with
  | Some h => [Visited h; Invoked h (args_for p h)]
  | None => []
  end.

(** The handlers registered in group [g], in registration order: a
    registration appends, a removal deletes the first occurrence. *)
Definition registered_step (g : Z) (acc : list handler) (r : registration) : list handler :=
  match r with
  | AddHandler h g' => if Z.eqb g' g then acc ++ [h] else acc
  | RemoveHandler h g' => if Z.eqb g' g then list_remove h acc else acc
  end.

Definition registered (g : Z) (rs : list registration) : list handler :=
  fold_left (registered_step g) rs [].

(** The number of suspension points of a pass over these handlers: one for
    each filter awaited and one for the callback. *)
Fixpoint suspensions (p : packet) (hs : list handler) : nat :=
  match hs with
  | [] => O
  | h :: hs' =>
      match kind h with
      | NewMessageEvent =>
          S (if accepts p h then 1%nat else suspensions p hs')
      | Raw => 1%nat
      | Unrecognised => suspensions p hs'
      end
  end.

(** [st'] is [st] after [n] more suspension points: the registrations
    scheduled at them have run on the live registry, in order. *)
Definition advanced (n : nat) (st st' : state) : Prop :=
  groups st' = run_registrations (concat (take n (schedule st))) (groups st) ∧
  schedule st' = drop n (schedule st).

(** What a pass over these handlers should log: a warning for each filter
    that raises in front of the first accepting handler, and an error when
    that handler's callback raises. *)
Fixpoint pass_log (p : packet) (hs : list handler) : list log_entry :=
  match hs with
  | [] => []
  | h :: hs' =>
      if accepts p h then
        match callback h (args_for p h) with
        | CallbackRaises => [LogCallbackError h]
        | _ => []
        end
      else
        match kind h, filter h (pkt_update p) with
        | NewMessageEvent, FilterRaises => LogFilterWarning h :: pass_log p hs'
        | _, _ => pass_log p hs'
        end
  end.

(** A handler whose filter and callback do the same on every update. *)
Definition constant_handler (i : nat) (k : handler_kind) (f : filter_outcome)
    (c : callback_outcome) : handler :=
  Handler i k (λ _, f) (λ _, c).

(** The callback of the first accepting handler ends the worker. *)
Definition cancels (p : packet) (hs : list handler) : bool :=
  match first_accepting p hs with
  | Some h =>
      match callback h (args_for p h) with CallbackCancelled => true | _ => false end
  | None => false
  end.


(** The groups that these registration tasks add a handler to. *)
Definition added_groups (rs : list registration) : list Z :=
  omap (λ r, match r with AddHandler _ g => Some g | RemoveHandler _ _ => None end) rs.

End Dispatcher.

(** ** Session pool (tele.py, class ClientsSession) *)

Module ClientsSession.

(** A logged-in [Client] object and an [asyncio.Task], by identity. *)
Definition client := nat.
Definition task := nat.

(** A value of the class-level dictionary [pool]: the task of a login in
    flight, or the tuple [(client, ref)]. *)
Inductive pool_entry :=
  | Login (t : task)
  | Entry (c : client) (ref : Z).

(** Where a [ClientsSession] instance stands: inside [__aenter__] with the
    accounts still to handle (and, when suspended in [await self.pool[phone]],
    the awaited task), after [__aenter__] returned, after [__aenter__] raised,
    or after [__aexit__]. *)
Inductive status :=
  | Entering (todo : list string) (waiting : option task)
  | Entered
  | EnterRaised
  | Exited.

(** A [ClientsSession] instance: [self.phones] and what has been put on
    [self.done]. *)
Record session := Session {
  stat : status;
  phones : list string;
  done : list (option client)
}.

(** A task created for [self.loginer(a)]: the instance it belongs to, the
    account's phone, and whether it has finished. *)
Record login_task := LoginTask {
  owner : nat;
  phone_of : string;
  finished : bool
}.

Record state := State {
  pool : gmap string pool_entry;          (* ClientsSession.pool *)
  sessions : gmap nat session;            (* the instances, by identity *)
  tasks : gmap task login_task;
  logins : list string;                   (* calls of [self.login], by phone *)
  next_client : client;                   (* identity of the next Client *)
  stopped : list client;                  (* [client.stop()] calls of [clean] *)
  counter : gmap string Z;                (* the watchdog's [counter] *)
  wd_todo : list string;                  (* rest of [for p in list(cls.pool)] *)
  wd_cleaning : option string;            (* suspended in [await cls.clean(p)] *)
  streak : gmap string Z                  (* history variable, see [visit] *)
}.

Definition initial : state :=
  State ∅ ∅ ∅ [] 0%nat [] ∅ [] None ∅.

Definition set_pool (f : gmap string pool_entry → gmap string pool_entry) (st : state) :=
  State (f (pool st)) (sessions st) (tasks st) (logins st) (next_client st)
        (stopped st) (counter st) (wd_todo st) (wd_cleaning st) (streak st).

Definition set_session (s : nat) (x : session) (st : state) :=
  State (pool st) (<[s:=x]> (sessions st)) (tasks st) (logins st) (next_client st)
        (stopped st) (counter st) (wd_todo st) (wd_cleaning st) (streak st).

Definition advance (rest : list string) : status :=
  match rest with [] => Entered | _ => Entering rest None end.

Definition fresh_task (st : state) : task := size (tasks st).

(** The locked part of one iteration of [for a in self.accounts] in
    [__aenter__], from [await self.lock.acquire()] on, for an instance that is
    not waiting for a login. *)
Definition acquire (s : nat) (st : state) : option state :=
  match sessions st !! s with
  | Some (Session (Entering (phone :: rest) None) ph dn) =>
      match pool st !! phone with
      | Some (Login t) =>
          (* lock released, [await self.pool[phone]] *)
          Some (set_session s (Session (Entering (phone :: rest) (Some t)) ph dn) st)
      | Some (Entry c ref) =>
          Some (set_session s (Session (advance rest) (ph ++ [phone]) (dn ++ [Some c]))
                 (set_pool <[phone := Entry c (ref + 1)]> st))
      | None =>
          let t := fresh_task st in
          Some (State (<[phone := Login t]> (pool st))
                      (<[s := Session (advance rest) ph dn]> (sessions st))
                      (<[t := LoginTask s phone false]> (tasks st))
                      (logins st ++ [phone]) (next_client st) (stopped st)
                      (counter st) (wd_todo st) (wd_cleaning st) (streak st))
      end
  | _ => None
  end.

(** The rest of that iteration once the awaited task has finished and the lock
    is taken again. *)
Definition resume (s : nat) (st : state) : option state :=
  match sessions st !! s with
  | Some (Session (Entering (phone :: rest) (Some t)) ph dn) =>
      match tasks st !! t with
      | Some (LoginTask _ _ true) =>
          match pool st !! phone with
          | Some (Login _) =>
              (* still a task: [continue] *)
              Some (set_session s (Session (advance rest) ph dn) st)
          | Some (Entry c ref) =>
              Some (set_session s (Session (advance rest) (ph ++ [phone]) (dn ++ [Some c]))
                     (set_pool <[phone := Entry c (ref + 1)]> st))
          | None =>
              (* [self.pool[phone]] raises KeyError *)
              Some (set_session s (Session EnterRaised ph dn) st)
          end
      | _ => None
      end
  | _ => None
  end.

Definition finish_task (t : task) (s : nat) (phone : string) (st : state) : state :=
  State (pool st) (sessions st) (<[t := LoginTask s phone true]> (tasks st))
        (logins st) (next_client st) (stopped st) (counter st) (wd_todo st)
        (wd_cleaning st) (streak st).

Definition put_done (s : nat) (item : option client) (ph : list string) (st : state) : state :=
  match sessions st !! s with
  | Some x => set_session s (Session (stat x) (phones x ++ ph) (done x ++ [item])) st
  | None => st
  end.

(** [loginer] from the return of [self.login] on: with a client, the entry
    [(client, 1)] under the lock; otherwise [None] on [self.done]. *)
Definition loginer_done (t : task) (ok : bool) (st : state) : option state :=
  match tasks st !! t with
  | Some (LoginTask s phone false) =>
      if ok then
        let c := next_client st in
        let st1 := set_pool <[phone := Entry c 1]> st in
        let st2 := put_done s (Some c) [phone] st1 in
        Some (finish_task t s phone
               (State (pool st2) (sessions st2) (tasks st2) (logins st2) (S c)
                      (stopped st2) (counter st2) (wd_todo st2) (wd_cleaning st2)
                      (streak st2)))
      else Some (finish_task t s phone (put_done s None [] st))
  | _ => None
  end.

(** The loop of [__aexit__]: [pool.get(phone)], and for a truthy entry the
    unpacking [client, ref = entry] (a TypeError on a task, which ends the
    loop) and the decrement. *)
Fixpoint release (ph : list string) (pl : gmap string pool_entry) : gmap string pool_entry :=
  match ph with
  | [] => pl
  | phone :: rest =>
      match pl !! phone with
      | None => release rest pl
      | Some (Entry c ref) => release rest (<[phone := Entry c (ref - 1)]> pl)
      | Some (Login _) => pl
      end
  end.

Definition aexit (s : nat) (st : state) : option state :=
  match sessions st !! s with
  | Some (Session Entered ph dn) =>
      Some (set_session s (Session Exited ph dn) (set_pool (release ph) st))
  | _ => None
  end.

(** [list(cls.pool)].  The order in which one scan goes through the keys is
    the map's, not the dictionary's insertion order; what a scan does to one
    phone does not depend on it. *)
Definition pool_keys (pl : gmap string pool_entry) : list string :=
  (map_to_list pl).*1.

(** The watchdog wakes from [asyncio.sleep(10)] and starts a scan.  Phones that
    are not in the pool are not part of this scan: their streak ends. *)
Definition wake (st : state) : option state :=
  match wd_todo st, wd_cleaning st with
  | [], None =>
      Some (State (pool st) (sessions st) (tasks st) (logins st) (next_client st)
                  (stopped st) (counter st) (pool_keys (pool st)) None
                  (filter (λ kv, is_Some (pool st !! kv.1)) (streak st)))
  | _, _ => None
  end.

(** [counter[p] >= timeout / 10], for an integer [timeout]. *)
Definition expired (timeout cnt : Z) : bool := timeout <=? 10 * cnt.

Definition set_watch (cn : gmap string Z) (todo : list string)
    (cl : option string) (sk : gmap string Z) (st : state) : state :=
  State (pool st) (sessions st) (tasks st) (logins st) (next_client st)
        (stopped st) cn todo cl sk.

(** The body of [for p in list(cls.pool)] up to the call of [clean].  The
    history variable [streak] counts, for each phone, the scans in a row up to
    the latest one in which the watchdog found its entry with [ref <= 0]. *)
Definition visit (timeout : Z) (st : state) : option state :=
  match wd_todo st, wd_cleaning st with
  | p :: rest, None =>
      match pool st !! p with
      | Some (Entry c ref) =>
          if ref <=? 0 then
            let sk := <[p := default 0 (streak st !! p) + 1]> (streak st) in
            match counter st !! p with
            | Some k =>
                if expired timeout (k + 1)
                then Some (set_watch (<[p := 0]> (counter st)) rest (Some p) sk st)
                else Some (set_watch (<[p := k + 1]> (counter st)) rest None sk st)
            | None => Some (set_watch (<[p := 1]> (counter st)) rest None sk st)
            end
          else Some (set_watch (delete p (counter st)) rest None (delete p (streak st)) st)
      | _ =>
          (* TypeError on a task, KeyError on a missing key: [pass] *)
          Some (set_watch (counter st) rest None (delete p (streak st)) st)
      end
  | _, _ => None
  end.

(** [clean(phone)], once it holds the lock. *)
Definition clean (phone : string) (st : state) : state :=
  match pool st !! phone with
  | Some (Entry c ref) =>
      if ref =? 0 then
        State (delete phone (pool st)) (sessions st) (tasks st) (logins st)
              (next_client st) (stopped st ++ [c]) (counter st) (wd_todo st)
              (wd_cleaning st) (streak st)
      else st
  | _ => st
  end.

Definition clean_step (st : state) : option state :=
  match wd_cleaning st with
  | Some p =>
      let st' := clean p st in
      Some (set_watch (counter st') (wd_todo st') None (streak st') st')
  | None => None
  end.

(** What can happen next in the process.  [clean_all], which nothing in this
    code base calls, and [shutdown], which ends the process, are not among
    the events. *)
Inductive event :=
  | New (s : nat) (accounts : list string)  (* [ClientsSession(accounts)] entered *)
  | Acquire (s : nat)
  | Resume (s : nat)
  | LoginDone (t : task) (ok : bool)
  | Exit (s : nat)
  | Wake
  | Visit
  | Clean.

Definition step (timeout : Z) (e : event) (st : state) : option state :=
  match e with
  | New s accounts =>
      match sessions st !! s with
      | None => Some (set_session s (Session (advance accounts) [] []) st)
      | Some _ => None
      end
  | Acquire s => acquire s st
  | Resume s => resume s st
  | LoginDone t ok => loginer_done t ok st
  | Exit s => aexit s st
  | Wake => wake st
  | Visit => visit timeout st
  | Clean => clean_step st
  end.

Fixpoint run (timeout : Z) (es : list event) (st : state) : option state :=
  match es with
  | [] => Some st
  | e :: es' =>
      match step timeout e st with
      | Some st' => run timeout es' st'
      | None => None
      end
  end.

Definition reachable (timeout : Z) (st : state) : Prop :=
  ∃ es, run timeout es initial = Some st.

(** One whole scan of the watchdog with nothing else running in between: wake,
    then every key in turn, each [clean] at once. *)
Fixpoint visit_all (timeout : Z) (n : nat) (st : state) : option state :=
  match n with
  | O => Some st
  | S n' =>
      match visit timeout st with
      | Some st1 =>
          match wd_cleaning st1 with
          | Some _ =>
              match clean_step st1 with
              | Some st2 => visit_all timeout n' st2
              | None => None
              end
          | None => visit_all timeout n' st1
          end
      | None => None
      end
  end.

Definition scan (timeout : Z) (st : state) : option state :=
  match wake st with
  | Some st1 => visit_all timeout (length (wd_todo st1)) st1
  | None => None
  end.

Fixpoint scans (timeout : Z) (n : nat) (st : state) : option state :=
  match n with
  | O => Some st
  | S n' =>
      match scan timeout st with
      | Some st' => scans timeout n' st'
      | None => None
      end
  end.

(** *** Vocabulary for the pool's properties *)

(** How many times an instance that has not left holds [p]: the occurrences
    of [p] in its [phones]. *)
Definition held (p : string) (x : session) : Z :=
  match stat x with
  | Exited => 0
  | _ => Z.of_nat (length (filter (λ q, q = p) (phones x)))
  end.

(** The borrowers of [p]: over all instances. *)
Definition borrowed (p : string) (st : state) : Z :=
  map_fold (λ _ x acc, held p x + acc) 0 (sessions st).

Definition count_of (p : string) (st : state) : Z := default 0 (counter st !! p).

Definition streak_of (p : string) (st : state) : Z := default 0 (streak st !! p).

Definition is_entry (e : option pool_entry) : bool :=
  match e with Some (Entry _ _) => true | _ => false end.

(** What holds of every state the process can reach. *)
Record consistent (timeout : Z) (st : state) : Prop := Consistent {
  refs_cover : ∀ p c r, pool st !! p = Some (Entry c r) → borrowed p st ≤ r;
  free_unborrowed : ∀ p, is_entry (pool st !! p) = false → borrowed p st = 0;
  pending_in_pool :
    ∀ t s p, tasks st !! t = Some (LoginTask s p false) → pool st !! p = Some (Login t);
  tasks_dense : ∀ t, is_Some (tasks st !! t) → (t < size (tasks st))%nat;
  streak_nonneg : ∀ p, 0 ≤ streak_of p st;
  counter_le_streak : ∀ p, count_of p st ≤ streak_of p st;
  free_uncounted : ∀ p, is_entry (pool st !! p) = false → count_of p st ≤ 0;
  cleaning_counter : ∀ p, wd_cleaning st = Some p → counter st !! p = Some 0;
  cleaning_streak : ∀ p, wd_cleaning st = Some p → timeout ≤ 10 * streak_of p st
}.



(** *** Other members of the class, and vocabulary for their properties *)



(** [__aiter__] of an instance with [n] accounts, on the items that are on
    [self.done]: each of the [n] iterations takes one item and yields it when
    it is a client.  The result is the clients yielded and the number of
    iterations that are left when the queue is empty: 0 when the generator has
    finished, otherwise it is suspended in [self.done.get()]. *)
Fixpoint aiter (n : nat) (queue : list (option client)) : list client * nat :=
  match n with
  | O => ([], O)
  | S n' =>
      match queue with
      | [] => ([], n)
      | Some c :: queue' => let '(cs, k) := aiter n' queue' in (c :: cs, k)
      | None :: queue' => aiter n' queue'
      end
  end.

(** One session is a later stage of another: it stays left once it has left,
    and [phones] and [done] only grow at their ends. *)
Definition grows (x x' : session) : Prop :=
  (stat x = Exited → stat x' = Exited) ∧
  (∃ m, phones x' = phones x ++ m) ∧
  (∃ m, done x' = done x ++ m).

(** The accounts [__aenter__] has still to handle. *)
Definition to_come (x : status) : nat :=
  match x with Entering todo _ => length todo | _ => O end.

(** The login tasks of instance [s] that have not finished. *)
Definition pending_of (s : nat) (m : gmap task login_task) : nat :=
  size (filter (λ kv : task * login_task, owner kv.2 = s ∧ finished kv.2 = false) m).

Definition pending (s : nat) (st : state) : nat := pending_of s (tasks st).

(** The items that have been put on the [done] queue of instance [s], and
    those that may still come: at most one for each account not yet handled
    and one for each of its login tasks that is still running. *)
Definition promised (s : nat) (st : state) : nat :=
  match sessions st !! s with
  | Some x => (length (done x) + to_come (stat x) + pending s st)%nat
  | None => O
  end.

(** Every login task belongs to an instance that exists. *)
Definition owners_known (st : state) : Prop :=
  ∀ t lt, tasks st !! t = Some lt → is_Some (sessions st !! owner lt).

End ClientsSession.

(** ** Relay requests (link.py, class Link) *)

Module Link.

(** A parsed TOML document, as [tomli.loads] returns it: a dictionary. *)
Definition toml := list (string * string).

Fixpoint toml_get (k : string) (t : toml) : option string :=
  match t with
  | [] => None
  | (k', v) :: t' => if String.eqb k' k then Some v else toml_get k t'
  end.

(** Python truth value of a dictionary. *)
Definition truthy (t : toml) : bool :=
  match t with [] => false | _ => true end.

(** [Link.bot]. *)
Definition bot : string := "embykeeper_auth_bot".

(** A message of the chat history: one sent by [post] (with a photo or not),
    or one that came in, in some chat. *)
Inductive msg :=
  | Outgoing (id : nat) (photo : bool)
  | Incoming (chat : string) (id : nat).

#[export] Instance msg_eq_dec : EqDecision msg.
Proof. solve_decision. Defined.

(** An event handed to [message_handler]: its chat, its text as [tomli.loads]
    sees it ([None] for TOMLDecodeError), and its message. *)
Record inbound := Inbound {
  chat_id : string;
  parsed : option toml;
  message : nat
}.

(** The caller's [condition] applied to a document. *)
Inductive condition_outcome := CondTruthy | CondFalsy | CondRaises.

(** What [send_message] / [send_file] does. *)
Inductive send_outcome :=
  | Sent
  | SendFloodWait (seconds : Z)   (* FloodWaitError *)
  | SendUserBlocked               (* UserBlockedError *)
  | SendRaises.                   (* another Exception *)

(** The outside world during one attempt: what sending does, the events the
    handler receives while it is registered, and how long the future takes to
    be resolved when it is. *)
Record attempt_env := AttemptEnv {
  send : send_outcome;
  arrivals : list inbound;
  reply_after : Z
}.

(** How an attempt ended. *)
Inductive attempt_end :=
  | EndReply (v : toml)
  | EndTimeout
  | EndFloodWait (seconds : Z)
  | EndUserBlocked
  | EndError.

(** The messages [post] logs at info level and above. *)
Inductive log_entry :=
  | InfoTimeoutRetry (r retries : nat)   (* "... (r/retries), retry in 3 s" *)
  | WarnTimeout (r retries : nat)        (* "... (r/retries)." *)
  | ErrorBlocked                         (* the relay bot is blocked *)
  | InfoFloodWait (seconds : Z)
  | ErrorRequest.                        (* "request failed: ..." *)

Record world := World {
  cache : gmap string (toml * Z);   (* [client.cache]: value and expiry time *)
  clock : Z;                        (* seconds *)
  handlers : list nat;              (* registered event handlers, by handle *)
  next_handler : nat;
  transcript : list msg;            (* messages present in the chat history *)
  next_message : nat;
  outbound : nat;                   (* messages sent so far *)
  history : list attempt_end;       (* the attempts made so far *)
  log : list log_entry
}.

Definition cache_get (key : string) (w : world) : option toml :=
  match cache w !! key with
  | Some (v, expiry) => if clock w <? expiry then Some v else None
  | None => None
  end.

Definition cache_set (key : string) (v : toml) (ttl : Z) (w : world) : world :=
  World (<[key := (v, clock w + ttl)]> (cache w)) (clock w) (handlers w)
        (next_handler w) (transcript w) (next_message w) (outbound w)
        (history w) (log w).

Definition sleep (seconds : Z) (w : world) : world :=
  World (cache w) (clock w + seconds) (handlers w) (next_handler w)
        (transcript w) (next_message w) (outbound w) (history w) (log w).

Definition write_log (l : log_entry) (w : world) : world :=
  World (cache w) (clock w) (handlers w) (next_handler w) (transcript w)
        (next_message w) (outbound w) (history w) (log w ++ [l]).

Definition record_end (e : attempt_end) (w : world) : world :=
  World (cache w) (clock w) (handlers w) (next_handler w) (transcript w)
        (next_message w) (outbound w) (history w ++ [e]) (log w).

Definition set_transcript (t : list msg) (w : world) : world :=
  World (cache w) (clock w) (handlers w) (next_handler w) t
        (next_message w) (outbound w) (history w) (log w).

(** [delete_messages]: each message is deleted from the history. *)
Definition delete_messages (ms : list msg) (w : world) : world :=
  set_transcript (filter (λ m, m ∉ ms) (transcript w)) w.

(** [add_event_handler] and [remove_event_handler] are the client library's:
    the first is taken to register the callback and give a handle, the second
    to unregister what that handle stands for. *)
Definition add_event_handler (w : world) : nat * world :=
  (next_handler w,
   World (cache w) (clock w) (handlers w ++ [next_handler w]) (S (next_handler w))
         (transcript w) (next_message w) (outbound w) (history w) (log w)).

Definition remove_event_handler (h : nat) (w : world) : world :=
  World (cache w) (clock w) (filter (λ x, x ≠ h) (handlers w)) (next_handler w)
        (transcript w) (next_message w) (outbound w) (history w) (log w).

(** A message arrives: it is in the chat history from then on. *)
Definition arrive (e : inbound) (w : world) : world :=
  set_transcript (transcript w ++ [Incoming (chat_id e) (message e)]) w.

(** The arguments of [post] ([name] only appears in log texts). *)
Record request := Request {
  cmd : string;
  photo : bool;
  condition : option (toml → condition_outcome);
  timeout : Z;
  retries : nat;
  fail : bool
}.

(** [message_handler(event)] on the future ([None] while pending).  The test
    [event.chat_id != self.bot] is read as a comparison of two chats. *)
Definition message_handler (rq : request) (e : inbound)
    (future : option toml) (w : world) : option toml * world :=
  if negb (String.eqb (chat_id e) bot) then (future, w)
  else
    let future' :=
      match parsed e with
      | None => future                                  (* TOMLDecodeError *)
      | Some t =>
          match toml_get "command" t with
          | Some c =>
              if String.eqb c (cmd rq) then
                match condition rq with
                | None => match future with None => Some t | Some _ => future end
                | Some cond =>
                    match cond t with
                    | CondTruthy =>
                        (* set_result; InvalidStateError when already set *)
                        match future with None => Some t | Some _ => future end
                    | CondFalsy | CondRaises => future
                    end
                end
              else future
          | None => future
          end
      end in
    (future', delete_messages [Incoming (chat_id e) (message e)] w).

(** The events of an attempt, each arriving and then handled. *)
Fixpoint deliver (rq : request) (es : list inbound) (future : option toml)
    (w : world) : option toml * world :=
  match es with
  | [] => (future, w)
  | e :: es' =>
      let '(future', w') := message_handler rq e future (arrive e w) in
      deliver rq es' future' w'
  end.

(** How the body of the [for] loop is left. *)
Inductive finish :=
  | FromCache (v : toml)   (* [return cached_result] *)
  | Reply (v : toml)       (* [return results] *)
  | TimedOut               (* the last attempt timed out *)
  | Blocked                (* UserBlockedError *)
  | Failed                 (* another Exception *)
  | LoopEnded.             (* the loop ran out: the function ends, None *)

Inductive control := Continue | Stop (f : finish).

(** [results and results.get("status") == "ok"]. *)
Definition carries_ok (results : toml) : bool :=
  truthy results && bool_decide (toml_get "status" results = Some "ok"%string).

(** The [finally] clause of the inner [try]. *)
Definition cleanup (messages : list msg) (handler : nat) (w : world) : world :=
  remove_event_handler handler (delete_messages messages w).

(** [except Exception as e] of the outer [try]. *)
Definition on_exception (w : world) : world := write_log ErrorRequest w.

Definition cache_key (instance : string) (rq : request) : string :=
  (cmd rq ++ "_" ++ instance)%string.

(** One iteration of [for r in range(retries)]. *)
Definition attempt (instance : string) (rq : request) (env : attempt_env)
    (r : nat) (w : world) : control * world :=
  let '(handler, w0) := add_event_handler w in
  match send env with
  | Sent =>
      let m := Outgoing (next_message w0) (photo rq) in
      let messages := [m] in
      let w1 :=
        World (cache w0) (clock w0) (handlers w0) (next_handler w0)
              (transcript w0 ++ [m]) (S (next_message w0)) (S (outbound w0))
              (history w0) (log w0) in
      match deliver rq (arrivals env) None w1 with
      | (Some results, w2) =>
          let w3 := sleep (reply_after env) w2 in
          let w4 :=
            if carries_ok results
            then cache_set (cache_key instance rq) results 3600 w3 else w3 in
          (Stop (Reply results), cleanup messages handler (record_end (EndReply results) w4))
      | (None, w2) =>
          let w3 := delete_messages messages (sleep (timeout rq) w2) in
          let w4 := record_end EndTimeout w3 in
          if (r + 1 <? retries rq)%nat then
            (Continue,
             cleanup messages handler
               (sleep 3 (write_log (InfoTimeoutRetry (r + 1) (retries rq)) w4)))
          else if fail rq then
            (Stop TimedOut, on_exception (cleanup messages handler w4))
          else
            (Stop TimedOut,
             cleanup messages handler (write_log (WarnTimeout (r + 1) (retries rq)) w4))
      end
  | SendUserBlocked =>
      let w1 := record_end EndUserBlocked w0 in
      if fail rq then (Stop Blocked, on_exception (cleanup [] handler w1))
      else (Stop Blocked, cleanup [] handler (write_log ErrorBlocked w1))
  | SendFloodWait seconds =>
      let w1 := cleanup [] handler (record_end (EndFloodWait seconds) w0) in
      (Continue, sleep seconds (write_log (InfoFloodWait seconds) w1))
  | SendRaises =>
      let w1 := cleanup [] handler (record_end EndError w0) in
      (Stop Failed, on_exception w1)
  end.

Fixpoint attempts_from (instance : string) (rq : request) (envs : nat → attempt_env)
    (n r : nat) (w : world) : finish * world :=
  match n with
  | O => (LoopEnded, w)
  | S n' =>
      match attempt instance rq (envs r) r w with
      | (Continue, w') => attempts_from instance rq envs n' (S r) w'
      | (Stop f, w') => (f, w')
      end
  end.

(** [Link.post]. *)
Definition post (instance : string) (rq : request) (envs : nat → attempt_env)
    (w : world) : finish * world :=
  match cache_get (cache_key instance rq) w with
  | Some cached =>
      if truthy cached then (FromCache cached, w)
      else attempts_from instance rq envs (retries rq) 0 w
  | None => attempts_from instance rq envs (retries rq) 0 w
  end.

(** The error a caller can get. *)
Inductive link_error := TimeoutError | BlockedError | OtherError.

(** What the call gives its caller. *)
Inductive outcome :=
  | Returns (v : option toml)
  | Raises (e : link_error).

Definition outcome_of (rq : request) (f : finish) : outcome :=
  match f with
  | FromCache v | Reply v => Returns (Some v)
  | TimedOut => if fail rq then Raises TimeoutError else Returns None
  | Blocked => if fail rq then Raises BlockedError else Returns None
  | Failed => if fail rq then Raises OtherError else Returns None
  | LoopEnded => Returns None
  end.



(** *** Vocabulary for the relay's properties *)

(** What the future of an attempt holds after these events: the document of
    the first event from the bot that parses, names the command and passes
    the caller's condition. *)
Definition resolves (rq : request) (e : inbound) : option toml :=
  if String.eqb (chat_id e) bot then
    match parsed e with
    | Some t =>
        match toml_get "command" t with
        | Some c =>
            if String.eqb c (cmd rq) then
              match condition rq with
              | None => Some t
              | Some cond =>
                  match cond t with CondTruthy => Some t | _ => None end
              end
            else None
        | None => None
        end
    | None => None
    end
  else None.

Fixpoint resolution (rq : request) (es : list inbound) : option toml :=
  match es with
  | [] => None
  | e :: es' =>
      match resolves rq e with
      | Some t => Some t
      | None => resolution rq es'
      end
  end.

(** How an attempt in this environment ends. *)
Definition ending (rq : request) (env : attempt_env) : attempt_end :=
  match send env with
  | Sent =>
      match resolution rq (arrivals env) with
      | Some v => EndReply v
      | None => EndTimeout
      end
  | SendFloodWait seconds => EndFloodWait seconds
  | SendUserBlocked => EndUserBlocked
  | SendRaises => EndError
  end.

(** The messages of these events that are in the bot's chat, and the others. *)
Definition bot_messages (es : list inbound) : list msg :=
  map (λ e, Incoming (chat_id e) (message e))
      (filter (λ e, chat_id e = bot) es).

Definition other_messages (es : list inbound) : list msg :=
  map (λ e, Incoming (chat_id e) (message e))
      (filter (λ e, chat_id e ≠ bot) es).

(** Everything but the chat history is as before. *)
Definition same_but_transcript (w w' : world) : Prop :=
  cache w' = cache w ∧ clock w' = clock w ∧ handlers w' = handlers w ∧
  next_handler w' = next_handler w ∧ next_message w' = next_message w ∧
  outbound w' = outbound w ∧ history w' = history w ∧ log w' = log w.


(** The attempts made since [w], the earliest first. *)
Definition attempts_since (w w' : world) : list attempt_end :=
  drop (length (history w)) (history w').


(** The attempt [r] of a request times out: the message is sent and no event
    resolves the future. *)
Definition times_out (rq : request) (env : attempt_env) : Prop :=
  send env = Sent ∧ resolution rq (arrivals env) = None.


(** A request with the defaults of [post]: [timeout=20], [retries=3], no
    photo, no condition. *)
Definition default_request (c : string) (f : bool) : request :=
  Request c false None 20 3 f.

(** An environment where the first attempt is rate limited for [seconds] and
    every later one gets no answer. *)
Definition flood_then_silence (seconds : Z) (r : nat) : attempt_env :=
  match r with
  | O => AttemptEnv (SendFloodWait seconds) [] 0
  | S _ => AttemptEnv Sent [] 0
  end.

(** An environment where no attempt gets an answer. *)
Definition silence (r : nat) : attempt_env := AttemptEnv Sent [] 0.

(** An environment where the bot is blocked. *)
Definition blocked (r : nat) : attempt_env := AttemptEnv SendUserBlocked [] 0.

Definition empty_world : world := World ∅ 0 [] 0%nat [] 0%nat 0%nat [] [].

(** *** The requests built on [post] *)

(** What [post] returns to a caller that leaves [fail=False]. *)
Definition results (f : finish) : option toml :=
  match f with
  | FromCache v | Reply v => Some v
  | _ => None
  end.















(** What [auth] works on besides the world of [post]: the entries of
    [client.cache] that hold an authorisation (a bool, under a key that starts
    with "auth_"; they are kept apart from the documents that [post] and the
    other requests store, whose keys start with the command or with the name of
    the request), and the module-level dictionaries [authed_services] and
    [super_ad_shown] of [lock.py]. *)
Record store := Store {
  world_of : world;
  flags : gmap string (bool * Z);
  authed_services : gmap nat (gmap string bool);
  super_ad_shown : gmap nat bool
}.

Definition with_world (w : world) (s : store) : store :=
  Store w (flags s) (authed_services s) (super_ad_shown s).

Definition flag_get (key : string) (s : store) : option bool :=
  match flags s !! key with
  | Some (b, expiry) => if clock (world_of s) <? expiry then Some b else None
  | None => None
  end.

Definition flag_set (key : string) (b : bool) (ttl : Z) (s : store) : store :=
  Store (world_of s) (<[key := (b, clock (world_of s) + ttl)]> (flags s))
        (authed_services s) (super_ad_shown s).

(** [authed_services.get(me, {}).get(service, None)] and
    [authed_services.setdefault(me, {})[service] = b]. *)
Definition verdict (me : nat) (service : string) (s : store) : option bool :=
  default ∅ (authed_services s !! me) !! service.

Definition set_verdict (me : nat) (service : string) (b : bool) (s : store) : store :=
  Store (world_of s) (flags s)
        (<[me := <[service := b]> (default ∅ (authed_services s !! me))]>
           (authed_services s))
        (super_ad_shown s).

(** [Link._show_super_ad] (the message itself is not recorded). *)
Definition _show_super_ad (me : nat) (s : store) : bool * store :=
  if default false (super_ad_shown s !! me) then (false, s)
  else (true, Store (world_of s) (flags s) (authed_services s)
                    (<[me := true]> (super_ad_shown s))).

Definition auth_key (service : string) (me : nat) : string :=
  ("auth_" ++ service ++ "_" ++ pretty me)%string.

Definition auth_request (instance service : string) (fail : bool) : request :=
  Request ("/auth " ++ service ++ " " ++ instance)%string false None 20 3 fail.

(** [Link.auth] for the user [me].  [log_func] tells whether the caller gave
    one; [insufficient] tells whether the text of an exception other than the
    timeout and the blocked bot contains the words for insufficient
    permission that [auth] looks for (the texts of those two do not). *)
Definition auth (instance : string) (me : nat) (service : string)
    (log_func insufficient : bool) (envs : nat → attempt_env) (s : store)
    : bool * store :=
  let key := auth_key service me in
  match flag_get key s with
  | Some cached => (cached, s)
  | None =>
      match verdict me service s with
      | Some b => (b, flag_set key b 3600 s)
      | None =>
          if negb log_func then
            let '(f, w') := post instance (auth_request instance service false)
                              envs (world_of s) in
            let result := match results f with Some r => truthy r | None => false end in
            (result,
             if result then flag_set key true 3600 (with_world w' s)
             else with_world w' s)
          else
            let rq := auth_request instance service true in
            let '(f, w') := post instance rq envs (world_of s) in
            match outcome_of rq f with
            | Raises e =>
                let s1 := with_world w' s in
                let s2 :=
                  match e with
                  | OtherError => if insufficient then (_show_super_ad me s1).2 else s1
                  | _ => s1
                  end in
                (false, flag_set key false 3600 (set_verdict me service false s2))
            | Returns _ =>
                (true, flag_set key true 3600 (set_verdict me service true (with_world w' s)))
            end
      end
  end.

(** *** Vocabulary for their properties *)

(** The wait an attempt is told when it is rate limited. *)
Definition flood_seconds (env : attempt_env) : Z :=
  match send env with SendFloodWait seconds => seconds | _ => 0 end.

Definition rate_limited (env : attempt_env) : bool :=
  match send env with SendFloodWait _ => true | _ => false end.


(** Time passes between two calls. *)
Definition later (d : Z) (s : store) : store := with_world (sleep d (world_of s)) s.

(** Further calls of [auth] for the same user and service, each after some
    time, with whatever arguments and whatever the bot does. *)
Record auth_call := AuthCall {
  after : Z;
  with_log_func : bool;
  says_insufficient : bool;
  replies : nat → attempt_env
}.

Fixpoint auth_calls (instance : string) (me : nat) (service : string)
    (calls : list auth_call) (s : store) : list bool * store :=
  match calls with
  | [] => ([], s)
  | c :: calls' =>
      let '(b, s1) := auth instance me service (with_log_func c) (says_insufficient c)
                        (replies c) (later (after c) s) in
      let '(bs, s2) := auth_calls instance me service calls' s1 in
      (b :: bs, s2)
  end.

(** The cached authorisation, when there is one, is the recorded verdict. *)
Definition agrees (me : nat) (service : string) (s : store) : Prop :=
  ∀ key b expiry v,
    key = auth_key service me →
    flags s !! key = Some (b, expiry) → verdict me service s = Some v → b = v.

End Link.

(** ** Messager (messager/_base.py, method send_message) *)

Module Messager.
Import ClientsSession.

(** What [client.send_message] does. *)
Inductive send_result :=
  | Delivered
  | FloodWait (seconds : Z)       (* FloodWaitError *)
  | ChatWriteForbidden            (* ChatWriteForbiddenError *)
  | SlowModeWait (seconds : Z)    (* SlowModeWaitError *)
  | SendError.                    (* another Exception *)

(** [for retry in range(3)] from iteration [retry] on, [n] iterations left:
    the value returned ([None] when the loop runs out), the seconds slept and
    the number of sends. *)
Fixpoint tries (outcome : nat → send_result) (n retry : nat) : option bool * Z * nat :=
  match n with
  | O => (None, 0, O)
  | S n' =>
      match outcome retry with
      | Delivered => (Some true, 0, 1%nat)
      | FloodWait seconds | SlowModeWait seconds =>
          let '(b, t, k) := tries outcome n' (S retry) in
          (b, (if (retry <? 2)%nat then seconds else 0) + t, S k)
      | ChatWriteForbidden => (Some false, 0, 1%nat)
      | SendError =>
          if (retry =? 2)%nat then (Some false, 0, 1%nat)
          else
            let '(b, t, k) := tries outcome n' (S retry) in
            (b, 1 + t, S k)
      end
  end.

(** The body of [async for client in session] on the clients it is given. *)
Fixpoint each_client (outcome : client → nat → send_result) (cs : list client)
    : option bool * Z * nat :=
  match cs with
  | [] => (None, 0, O)
  | c :: cs' =>
      match tries (outcome c) 3 0 with
      | (Some b, t, k) => (Some b, t, k)
      | (None, t, k) =>
          let '(b, t', k') := each_client outcome cs' in
          (b, t + t', (k + k')%nat)
      end
  end.

(** [send_message] on a session with [n] accounts whose [done] queue holds
    [queue]: [None] when the call is left suspended in the iteration. *)
Definition send_message (n : nat) (queue : list (option client))
    (outcome : client → nat → send_result) : option bool * Z * nat :=
  let '(cs, rest) := aiter n queue in
  match each_client outcome cs with
  | (Some b, t, k) => (Some b, t, k)
  | (None, t, k) => (match rest with O => Some false | S _ => None end, t, k)
  end.

End Messager.

(** * Properties *)

(** ** Dispatcher *)

Section DispatcherFacts.
Import Dispatcher.

(** *** The registry stays ordered by group number *)

Lemma dict_alter_keys f g d : (dict_alter f g d).*1 = d.*1.
Proof.
  induction d as [|[k hs] d IH]; csimpl; [done|].
  destruct (Z.eqb k g); csimpl; [done|]. by f_equal.
Qed.

Lemma dict_get_None g d : dict_get g d = None ↔ g ∉ d.*1.
Proof.
  induction d as [|[k hs] d IH]; simpl.
  - split; [intros _; apply not_elem_of_nil | done].
  - destruct (Z.eqb_spec k g) as [->|Hne].
    + split; [done | intros H; exfalso; apply H; left].
    + rewrite IH, not_elem_of_cons.
      split; [intros H; split; [congruence | done] | by intros [_ H]].
Qed.

Lemma dict_get_elem_of g hs d :
  NoDup d.*1 → dict_get g d = Some hs ↔ (g, hs) ∈ d.
Proof.
  induction d as [|[k hs'] d IH]; simpl; intros Hnd.
  - split; [done | intros H; by apply elem_of_nil in H].
  - apply NoDup_cons in Hnd as [Hk Hnd].
    destruct (Z.eqb_spec k g) as [->|Hne].
    + split.
      * intros [= ->]. left.
      * intros [[= ->]|Hin]%elem_of_cons; [done|].
        exfalso. apply Hk. apply (list_elem_of_fmap_2 fst) in Hin. done.
    + rewrite IH by done. rewrite elem_of_cons.
      split; [by right | intros [[= -> _]|?]; done].
Qed.

Lemma sorted_le_lt (l : list Z) :
  StronglySorted Z.le l → NoDup l → StronglySorted Z.lt l.
Proof.
  induction 1 as [|x l Hs IH Hall]; intros Hnd; [constructor|].
  apply NoDup_cons in Hnd as [Hx Hnd].
  constructor; [by apply IH|].
  rewrite List.Forall_forall in *. intros y Hy.
  specialize (Hall y Hy). apply list_elem_of_In in Hy.
  assert (x ≠ y) by (intros ->; done). lia.
Qed.

Lemma sorted_lt_NoDup (l : list Z) : StronglySorted Z.lt l → NoDup l.
Proof.
  induction 1 as [|x l Hs IH Hall]; [constructor|].
  apply NoDup_cons; split; [|done].
  intros Hx. rewrite List.Forall_forall in Hall.
  apply list_elem_of_In in Hx. specialize (Hall x Hx). lia.
Qed.

Lemma sorted_fmap_fst (d : groups_t) :
  StronglySorted item_le d → StronglySorted Z.le d.*1.
Proof.
  induction 1 as [|x l Hs IH Hall]; simpl; constructor; [done|].
  rewrite List.Forall_forall in *. intros y Hy.
  apply list_elem_of_In, list_elem_of_fmap in Hy as (z & -> & Hz).
  apply list_elem_of_In in Hz. by apply Hall.
Qed.

#[local] Instance item_le_trans : Transitive item_le.
Proof. intros x y z. unfold item_le. lia. Qed.

#[local] Instance item_le_total : Total item_le.
Proof. intros x y. unfold item_le. lia. Qed.

Lemma sorted_items_perm d : sorted_items d ≡ₚ d.
Proof. apply merge_sort_Permutation. Qed.

Lemma sorted_items_ordered d :
  NoDup d.*1 → StronglySorted Z.lt (sorted_items d).*1.
Proof.
  intros Hnd. apply sorted_le_lt.
  - apply sorted_fmap_fst. unfold sorted_items.
    apply StronglySorted_merge_sort; apply _.
  - by rewrite (sorted_items_perm d).
Qed.

Lemma add_handler_ordered h g d :
  StronglySorted Z.lt d.*1 → StronglySorted Z.lt (add_handler h g d).*1.
Proof.
  intros Hs. unfold add_handler. cbv zeta. rewrite dict_alter_keys.
  unfold dict_mem. destruct (dict_get g d) eqn:Hg; [done|].
  apply sorted_items_ordered. rewrite fmap_app. simpl.
  apply NoDup_app. split; [by apply sorted_lt_NoDup|]. split.
  - intros x Hx ->%list_elem_of_singleton. by apply dict_get_None in Hg.
  - apply NoDup_singleton.
Qed.

Lemma remove_handler_keys h g d : (remove_handler h g d).1.*1 = d.*1.
Proof.
  unfold remove_handler. destruct (dict_get g d); [|done].
  destruct (list_mem h l); simpl; [apply dict_alter_keys | done].
Qed.

Lemma run_registration_ordered r d :
  StronglySorted Z.lt d.*1 → StronglySorted Z.lt (run_registration r d).*1.
Proof.
  destruct r; simpl; [apply add_handler_ordered|].
  by rewrite remove_handler_keys.
Qed.

Lemma run_registrations_ordered rs d :
  StronglySorted Z.lt d.*1 → StronglySorted Z.lt (run_registrations rs d).*1.
Proof.
  revert d. induction rs as [|r rs IH]; intros d Hd; simpl; [done|].
  apply IH. by apply run_registration_ordered.
Qed.

(** *** Registration order inside a group *)

Lemma dict_get_alter_eq f g d :
  dict_get g (dict_alter f g d) = f <$> dict_get g d.
Proof.
  induction d as [|[k hs] d IH]; simpl; [done|].
  destruct (Z.eqb_spec k g) as [->|Hne]; simpl.
  - by rewrite Z.eqb_refl.
  - destruct (Z.eqb_spec k g); [done|]. apply IH.
Qed.

Lemma dict_get_alter_ne f g g' d :
  g ≠ g' → dict_get g' (dict_alter f g d) = dict_get g' d.
Proof.
  intros Hne. induction d as [|[k hs] d IH]; simpl; [done|].
  destruct (Z.eqb_spec k g) as [->|Hkg]; simpl.
  - destruct (Z.eqb_spec g g'); done.
  - destruct (Z.eqb_spec k g'); [done|]. apply IH.
Qed.

Lemma dict_get_sorted_items g d :
  NoDup d.*1 → dict_get g (sorted_items d) = dict_get g d.
Proof.
  intros Hnd.
  assert (NoDup (sorted_items d).*1) as Hnd' by by rewrite (sorted_items_perm d).
  destruct (dict_get g d) as [hs|] eqn:Hg.
  - apply dict_get_elem_of; [done|]. rewrite (sorted_items_perm d).
    by apply dict_get_elem_of.
  - apply dict_get_None. rewrite (sorted_items_perm d). by apply dict_get_None.
Qed.

Lemma dict_get_app_new g g' d :
  dict_get g' (d ++ [(g, [])]) =
  match dict_get g' d with
  | Some hs => Some hs
  | None => if Z.eqb g g' then Some [] else None
  end.
Proof.
  induction d as [|[k hs] d IH]; simpl; [done|].
  destruct (Z.eqb k g'); [done | apply IH].
Qed.

Lemma list_remove_absent h hs : list_mem h hs = false → list_remove h hs = hs.
Proof.
  unfold list_mem. induction hs as [|x hs IH]; simpl; [done|].
  destruct (same_handler x h); simpl; [done|]. intros H. by rewrite IH.
Qed.

Lemma run_registration_get g r d :
  StronglySorted Z.lt d.*1 →
  default [] (dict_get g (run_registration r d)) =
  registered_step g (default [] (dict_get g d)) r.
Proof.
  intros Hs. pose proof (sorted_lt_NoDup _ Hs) as Hnd.
  destruct r as [h g'|h g']; simpl.
  - unfold add_handler. cbv zeta. destruct (Z.eqb_spec g' g) as [->|Hne].
    + rewrite dict_get_alter_eq. unfold dict_mem.
      destruct (dict_get g d) as [hs|] eqn:Hg; simpl; [by rewrite Hg|].
      rewrite dict_get_sorted_items, dict_get_app_new, Hg, Z.eqb_refl; [done|].
      rewrite fmap_app. apply NoDup_app. split; [done|]. split.
      * intros x Hx ->%list_elem_of_singleton. by apply dict_get_None in Hg.
      * apply NoDup_singleton.
    + rewrite dict_get_alter_ne by done. unfold dict_mem.
      destruct (dict_get g' d) as [hs|] eqn:Hg; [done|].
      rewrite dict_get_sorted_items, dict_get_app_new.
      * destruct (dict_get g d); [done|]. by destruct (Z.eqb_spec g' g).
      * rewrite fmap_app. apply NoDup_app. split; [done|]. split.
        -- intros x Hx ->%list_elem_of_singleton. by apply dict_get_None in Hg.
        -- apply NoDup_singleton.
  - unfold remove_handler. destruct (Z.eqb_spec g' g) as [->|Hne].
    + destruct (dict_get g d) as [hs|] eqn:Hg; simpl; [|by rewrite Hg].
      destruct (list_mem h hs) eqn:Hm; simpl.
      * by rewrite dict_get_alter_eq, Hg.
      * by rewrite Hg, list_remove_absent.
    + destruct (dict_get g' d) as [hs|]; simpl; [|done].
      destruct (list_mem h hs); simpl; [|done].
      by rewrite dict_get_alter_ne.
Qed.

Lemma run_registrations_get g rs d :
  StronglySorted Z.lt d.*1 →
  default [] (dict_get g (run_registrations rs d)) =
  fold_left (registered_step g) rs (default [] (dict_get g d)).
Proof.
  revert d. induction rs as [|r rs IH]; intros d Hd; simpl; [done|].
  rewrite IH by by apply run_registration_ordered.
  by rewrite run_registration_get.
Qed.

(** *** One pass *)

Lemma await_trace st : trace (await st) = trace st.
Proof. unfold await. by destruct (schedule st). Qed.

Lemma await_log st : log (await st) = log st.
Proof. unfold await. by destruct (schedule st). Qed.

Lemma delivery_cons p h hs :
  delivery p (h :: hs) =
  Visited h :: (if accepts p h then [Invoked h (args_for p h)] else delivery p hs).
Proof.
  unfold delivery, first_accepting. simpl. by destruct (accepts p h).
Qed.

Lemma delivery_app p hs hs' :
  delivery p (hs ++ hs') =
  match first_accepting p hs with
  | Some _ => delivery p hs
  | None => map Visited hs ++ delivery p hs'
  end.
Proof.
  induction hs as [|h hs IH]; [done|].
  change ((h :: hs) ++ hs') with (h :: (hs ++ hs')).
  rewrite delivery_cons, IH. unfold first_accepting. simpl.
  destruct (accepts p h) eqn:Ha; [by rewrite delivery_cons, Ha|].
  destruct (List.find (accepts p) hs); [by rewrite delivery_cons, Ha | done].
Qed.

Lemma invoke_trace h args st :
  trace (invoke h args st).2 = trace st ++ [Invoked h args].
Proof.
  unfold invoke. destruct (callback h args); simpl;
    by rewrite await_trace.
Qed.

Lemma run_group_trace p group st :
  trace (run_group p group st).2 = trace st ++ delivery p group.
Proof.
  revert st. induction group as [|h group IH]; intros st; simpl.
  - unfold delivery. simpl. by rewrite app_nil_r.
  - rewrite delivery_cons. unfold accepts, args_for.
    destruct (kind h); [destruct (filter h (pkt_update p))|..];
      rewrite ?invoke_trace, ?IH; simpl; rewrite ?await_trace; simpl;
      by rewrite <- ?app_assoc.
Qed.

Lemma advanced_refl st : advanced 0 st st.
Proof. split; [done | by rewrite drop_0]. Qed.

Lemma advanced_trans n m st st' st'' :
  advanced n st st' → advanced m st' st'' → advanced (n + m) st st''.
Proof.
  intros [Hg Hs] [Hg' Hs']. split.
  - rewrite Hg', Hg, Hs. unfold run_registrations.
    rewrite <- fold_left_app, <- concat_app. do 2 f_equal.
    by rewrite take_take_drop.
  - by rewrite Hs', Hs, drop_drop.
Qed.

Lemma advanced_await st : advanced 1 st (await st).
Proof.
  unfold advanced, await. destruct (schedule st) as [|rs rest] eqn:Hs; simpl.
  - done.
  - by rewrite app_nil_r.
Qed.

Lemma advanced_emit n e st st' : advanced n st st' → advanced n st (emit e st').
Proof. by intros [? ?]. Qed.

Lemma advanced_emit_l n e st st' : advanced n (emit e st) st' → advanced n st st'.
Proof. by intros [? ?]. Qed.

Lemma advanced_write_log n l st st' :
  advanced n st st' → advanced n st (write_log l st').
Proof. by intros [? ?]. Qed.

Lemma advanced_write_log_l n l st st' :
  advanced n (write_log l st) st' → advanced n st st'.
Proof. by intros [? ?]. Qed.

Lemma invoke_advanced h args st : advanced 1 st (invoke h args st).2.
Proof.
  unfold invoke.
  assert (advanced 1 st (await (emit (Invoked h args) st))) as H
    by (eapply advanced_emit_l, advanced_await).
  by destruct (callback h args).
Qed.

Lemma run_group_advanced p group st :
  advanced (suspensions p group) st (run_group p group st).2.
Proof.
  revert st. induction group as [|h group IH]; intros st; simpl.
  - apply advanced_refl.
  - unfold accepts. apply (advanced_emit_l _ (Visited h)).
    destruct (kind h).
    + destruct (filter h (pkt_update p)).
      * apply (advanced_trans 1 1 _ (await (emit (Visited h) st)));
          [apply advanced_await | apply invoke_advanced].
      * apply (advanced_trans 1 _ _ (await (emit (Visited h) st)));
          [apply advanced_await | apply IH].
      * apply (advanced_trans 1 _ _ (await (emit (Visited h) st)));
          [apply advanced_await |].
        apply (advanced_write_log_l _ (LogFilterWarning h)), IH.
    + apply invoke_advanced.
    + apply IH.
Qed.

Lemma run_group_exit p group st :
  (run_group p group st).1 =
  match first_accepting p group with
  | None => GroupExhausted
  | Some h =>
      match callback h (args_for p h) with
      | CallbackReturns | CallbackRaises => GroupBreak
      | CallbackStopPropagation => GroupStopPropagation
      | CallbackCancelled => GroupCancelled
      end
  end.
Proof.
  revert st. induction group as [|h group IH]; intros st; simpl; [done|].
  unfold first_accepting in *. simpl. unfold accepts at 1.
  destruct (kind h) eqn:Hk.
  - destruct (filter h (pkt_update p)); simpl; [|apply IH..].
    unfold invoke, args_for. rewrite Hk. by destruct (callback h _).
  - unfold invoke, args_for. rewrite Hk. by destruct (callback h _).
  - apply IH.
Qed.

Lemma suspensions_app p hs hs' :
  suspensions p (hs ++ hs') =
  match first_accepting p hs with
  | Some _ => suspensions p hs
  | None => (suspensions p hs + suspensions p hs')%nat
  end.
Proof.
  unfold first_accepting. induction hs as [|h hs IH]; simpl; [done|].
  destruct (accepts p h) eqn:Ha; unfold accepts in Ha;
    destruct (kind h); try done; rewrite IH;
    by destruct (List.find (accepts p) hs).
Qed.

Lemma first_accepting_app p hs hs' :
  first_accepting p (hs ++ hs') =
  match first_accepting p hs with
  | Some h => Some h
  | None => first_accepting p hs'
  end.
Proof.
  unfold first_accepting. induction hs as [|h hs IH]; simpl; [done|].
  by destruct (accepts p h).
Qed.

Lemma passed_over_all p hs :
  first_accepting p hs = None → passed_over p hs = hs.
Proof.
  unfold first_accepting. induction hs as [|h hs IH]; simpl; [done|].
  destruct (accepts p h); [done|]. intros H. by rewrite IH.
Qed.

Lemma run_groups_trace p snapshot st :
  trace (run_groups p snapshot st).2 = trace st ++ delivery p (concat snapshot).
Proof.
  revert st. induction snapshot as [|group rest IH]; intros st; simpl.
  - unfold delivery. simpl. by rewrite app_nil_r.
  - pose proof (run_group_trace p group st) as Ht.
    pose proof (run_group_exit p group st) as He.
    rewrite delivery_app.
    destruct (run_group p group st) as [ex st']. simpl in *.
    destruct (first_accepting p group) as [h|] eqn:Hf.
    + destruct (callback h (args_for p h)); subst ex; simpl; done.
    + subst ex. rewrite IH, Ht, <- app_assoc. f_equal.
      unfold delivery at 1. rewrite Hf, passed_over_all, app_nil_r; done.
Qed.

Lemma run_groups_advanced p snapshot st :
  advanced (suspensions p (concat snapshot)) st (run_groups p snapshot st).2.
Proof.
  revert st. induction snapshot as [|group rest IH]; intros st; simpl.
  - apply advanced_refl.
  - pose proof (run_group_advanced p group st) as Ha.
    pose proof (run_group_exit p group st) as He.
    rewrite suspensions_app.
    destruct (run_group p group st) as [ex st']. simpl in *.
    destruct (first_accepting p group) as [h|] eqn:Hf.
    + destruct (callback h (args_for p h)); subst ex; simpl; done.
    + subst ex. eapply advanced_trans; [done | apply IH].
Qed.

Lemma run_groups_exit p snapshot st :
  (run_groups p snapshot st).1 =
  if cancels p (concat snapshot) then PassCancelled else PassDone.
Proof.
  revert st. induction snapshot as [|group rest IH]; intros st; simpl; [done|].
  pose proof (run_group_exit p group st) as He.
  unfold cancels in *. rewrite first_accepting_app.
  destruct (run_group p group st) as [ex st']. simpl in *.
  destruct (first_accepting p group) as [h|] eqn:Hf.
  - destruct (callback h (args_for p h)); subst ex; simpl; done.
  - subst ex. apply IH.
Qed.

Lemma invoke_log h args st :
  log (invoke h args st).2 =
  log st ++ match callback h args with
            | CallbackRaises => [LogCallbackError h]
            | _ => []
            end.
Proof.
  unfold invoke. destruct (callback h args); simpl;
    rewrite await_log; simpl; by rewrite ?app_nil_r.
Qed.

Lemma run_group_log p group st :
  log (run_group p group st).2 = log st ++ pass_log p group.
Proof.
  revert st. induction group as [|h group IH]; intros st; simpl.
  - by rewrite app_nil_r.
  - unfold accepts at 1. destruct (kind h) eqn:Hk.
    + destruct (filter h (pkt_update p)) eqn:Hf.
      * rewrite invoke_log, await_log. unfold args_for. by rewrite Hk.
      * rewrite IH, await_log. done.
      * rewrite IH. simpl. rewrite await_log. simpl. by rewrite <- app_assoc.
    + rewrite invoke_log. unfold args_for. by rewrite Hk.
    + by rewrite IH.
Qed.

Lemma pass_log_app p hs hs' :
  pass_log p (hs ++ hs') =
  match first_accepting p hs with
  | Some _ => pass_log p hs
  | None => pass_log p hs ++ pass_log p hs'
  end.
Proof.
  unfold first_accepting. induction hs as [|h hs IH]; simpl; [done|].
  destruct (accepts p h); [done|]. rewrite IH.
  destruct (List.find (accepts p) hs); [done|].
  by destruct (kind h), (filter h (pkt_update p)).
Qed.

Lemma run_groups_log p snapshot st :
  log (run_groups p snapshot st).2 = log st ++ pass_log p (concat snapshot).
Proof.
  revert st. induction snapshot as [|group rest IH]; intros st; simpl.
  - by rewrite app_nil_r.
  - pose proof (run_group_log p group st) as Hl.
    pose proof (run_group_exit p group st) as He.
    rewrite pass_log_app.
    destruct (run_group p group st) as [ex st']. simpl in *.
    destruct (first_accepting p group) as [h|] eqn:Hf.
    + destruct (callback h (args_for p h)); subst ex; simpl; done.
    + subst ex. by rewrite IH, Hl, <- app_assoc.
Qed.

(** *** The claims about the dispatcher *)

Lemma passed_over_rejects p hs :
  Forall (λ h, accepts p h = false) (passed_over p hs).
Proof.
  induction hs as [|h hs IH]; simpl; [constructor|].
  destruct (accepts p h) eqn:Ha; by constructor.
Qed.

Lemma first_accepting_split p hs h :
  first_accepting p hs = Some h →
  accepts p h = true ∧ ∃ rest, hs = passed_over p hs ++ h :: rest.
Proof.
  unfold first_accepting. induction hs as [|x hs IH]; simpl; [done|].
  destruct (accepts p x) eqn:Ha.
  - intros [= ->]. split; [done|]. by exists hs.
  - intros [Hh [rest Hr]]%IH. split; [done|]. exists rest. simpl. by f_equal.
Qed.

Lemma first_accepting_passed_over p hs :
  first_accepting p (passed_over p hs) = None.
Proof.
  unfold first_accepting. induction hs as [|h hs IH]; simpl; [done|].
  destruct (accepts p h) eqn:Ha; simpl; [done|]. by rewrite Ha.
Qed.

Lemma dispatch_trace p st :
  trace (dispatch p st).2 = trace st ++ delivery p (traversal (groups st)).
Proof. apply run_groups_trace. Qed.

(** C1.  Whatever registrations built the registry, its groups are in
    strictly ascending order of their numbers and each group lists its handlers
    in registration order; a pass over a packet looks at the handlers in that
    order up to the first one that accepts the packet, invokes that handler's
    callback and nothing else, and looks at no handler after it, in its group
    or in a later group; when no handler accepts, every handler is looked at
    and none is invoked. *)
Theorem dispatch_first_match rs sched tr lg p :
  let reg := run_registrations rs [] in
  let hs := traversal reg in
  let st' := (dispatch p (State reg sched tr lg)).2 in
  StronglySorted Z.lt reg.*1 ∧
  (∀ g, default [] (dict_get g reg) = registered g rs) ∧
  trace st' =
    tr ++ map Visited (passed_over p hs) ++
    match first_accepting p hs with
    | Some h => [Visited h; Invoked h (args_for p h)]
    | None => []
    end ∧
  Forall (λ h, accepts p h = false) (passed_over p hs) ∧
  match first_accepting p hs with
  | Some h => accepts p h = true ∧ ∃ rest, hs = passed_over p hs ++ h :: rest
  | None => passed_over p hs = hs
  end.
Proof.
  intros reg hs st'.
  assert (StronglySorted Z.lt reg.*1) as Hs
    by (apply run_registrations_ordered; constructor).
  split; [done|]. split.
  { intros g. unfold reg, registered.
    by rewrite run_registrations_get by constructor. }
  split; [apply dispatch_trace|]. split; [apply passed_over_rejects|].
  destruct (first_accepting p hs) as [h|] eqn:Hf.
  - by apply first_accepting_split.
  - by apply passed_over_all.
Qed.


(** C10.  When the callback of the accepting handler raises an ordinary
    exception, the pass ends there: the error is logged, no handler after it
    is looked at or invoked for this packet, and the worker goes on with the
    rest of the queue. *)
Theorem callback_error_short_circuits p queue st h :
  let st0 := await st in
  let hs := traversal (groups st0) in
  first_accepting p hs = Some h →
  callback h (args_for p h) = CallbackRaises →
  ∃ st',
    dispatch p (emit (Dequeued p) st0) = (PassDone, st') ∧
    trace st' =
      trace st ++ Dequeued p :: map Visited (passed_over p hs) ++
      [Visited h; Invoked h (args_for p h)] ∧
    (∃ warnings, log st' = log st ++ warnings ++ [LogCallbackError h]) ∧
    handler_worker (Some p :: queue) st = handler_worker queue st'.
Proof.
  intros st0 hs Hf Hc.
  destruct (dispatch p (emit (Dequeued p) st0)) as [ex st'] eqn:Hd.
  assert (ex = PassDone) as ->.
  { change ex with (ex, st').1. rewrite <- Hd. unfold dispatch.
    rewrite run_groups_exit. unfold cancels. simpl.
    fold (traversal (groups st0)). fold hs. by rewrite Hf, Hc. }
  exists st'. split; [done|]. split; [|split].
  - change st' with (PassDone, st').2. rewrite <- Hd, dispatch_trace. simpl.
    unfold st0 at 1. rewrite await_trace, <- app_assoc. simpl.
    fold hs. unfold delivery. by rewrite Hf.
  - change st' with (PassDone, st').2. rewrite <- Hd. unfold dispatch.
    rewrite run_groups_log. simpl. unfold st0 at 1. rewrite await_log.
    fold (traversal (groups st0)). fold hs.
    destruct (first_accepting_split _ _ _ Hf) as [Ha [rest Hr]].
    exists (pass_log p (passed_over p hs)). f_equal.
    rewrite Hr at 1. rewrite pass_log_app, first_accepting_passed_over.
    simpl. by rewrite Ha, Hc.
  - simpl. fold st0. by rewrite Hd.
Qed.

Lemma callback_error_short_circuits_witness :
  let h1 := constant_handler 1%nat NewMessageEvent FilterFalsy CallbackReturns in
  let h2 := constant_handler 2%nat NewMessageEvent FilterTruthy CallbackRaises in
  let h3 := constant_handler 3%nat Raw FilterTruthy CallbackReturns in
  let p := Packet 7%nat 0%nat 0%nat in
  let st := State [(0, [h1; h2]); (1, [h3])] [] [] [] in
  ∃ st',
    dispatch p (emit (Dequeued p) (await st)) = (PassDone, st') ∧
    trace st' =
      trace st ++ Dequeued p :: map Visited [h1] ++
      [Visited h2; Invoked h2 (args_for p h2)] ∧
    (∃ warnings, log st' = log st ++ warnings ++ [LogCallbackError h2]) ∧
    handler_worker [Some p; Some p] st = handler_worker [Some p] st'.
Proof.
  intros h1 h2 h3 p st.
  apply (callback_error_short_circuits p [Some p] st h2); reflexivity.
Defined.


(** *** The dispatcher on small inputs *)

Example registry_sorted :
  let h0 := constant_handler 0 Raw FilterTruthy CallbackReturns in
  let h1 := constant_handler 1 Raw FilterTruthy CallbackReturns in
  let h2 := constant_handler 2 NewMessageEvent FilterFalsy CallbackReturns in
  run_registrations [AddHandler h1 1; AddHandler h2 0; AddHandler h0 0;
                     AddHandler h0 (-3); RemoveHandler h0 (-3)] []
  = [(-3, []); (0, [h2; h0]); (1, [h1])].
Proof. reflexivity. Qed.

Example lower_group_wins :
  let h0 := constant_handler 0 NewMessageEvent FilterTruthy CallbackReturns in
  let h1 := constant_handler 1 Raw FilterTruthy CallbackReturns in
  let p := Packet 7%nat 0%nat 0%nat in
  trace (dispatch p (State [(0, [h0]); (1, [h1])] [] [] [])).2
  = [Visited h0; Invoked h0 (ArgsUpdate 7%nat)].
Proof. reflexivity. Qed.

Example removal_during_pass :
  let h0 := constant_handler 0 NewMessageEvent FilterFalsy CallbackReturns in
  let h1 := constant_handler 1 Raw FilterTruthy CallbackReturns in
  let p := Packet 7%nat 0%nat 0%nat in
  let st := State [(0, [h0; h1])] [[]; [RemoveHandler h1 0]] [] [] in
  (handler_worker [Some p; Some p] st).2
  = State [(0, [h0])] []
      [Dequeued p; Visited h0; Visited h1; Invoked h1 (ArgsRaw 7%nat 0%nat 0%nat);
       Dequeued p; Visited h0] [].
Proof. reflexivity. Qed.

End DispatcherFacts.

(** ** Session pool *)

Section PoolFacts.
Import ClientsSession.

Lemma held_nonneg p x : 0 ≤ held p x.
Proof. unfold held. destruct (stat x); lia. Qed.

Lemma borrowed_fold_comm p (j1 j2 : nat) (z1 z2 : session) (y : Z) :
  held p z1 + (held p z2 + y) = held p z2 + (held p z1 + y).
Proof. lia. Qed.

Lemma borrowed_nonneg p st : 0 ≤ borrowed p st.
Proof.
  unfold borrowed.
  apply (map_fold_weak_ind (λ r _, 0 ≤ r)); [done|].
  intros i x m r _ Hr. pose proof (held_nonneg p x). lia.
Qed.

Lemma fold_held_insert_None p s (y : session) (m : gmap nat session) :
  m !! s = None →
  map_fold (λ _ x acc, held p x + acc) 0 (<[s:=y]> m) =
  held p y + map_fold (λ _ x acc, held p x + acc) 0 m.
Proof.
  intros Hs. apply (map_fold_insert_L (λ _ x acc, held p x + acc)); [|done].
  intros. lia.
Qed.

Lemma fold_held_insert_Some p s (x y : session) (m : gmap nat session) :
  m !! s = Some x →
  map_fold (λ _ x acc, held p x + acc) 0 (<[s:=y]> m) =
  map_fold (λ _ x acc, held p x + acc) 0 m - held p x + held p y.
Proof.
  intros Hs.
  rewrite (map_fold_delete_L (λ _ x acc, held p x + acc) 0 s x m); [|intros; lia|done].
  rewrite <- (insert_delete_eq m s y).
  rewrite fold_held_insert_None by apply lookup_delete_eq. lia.
Qed.

Lemma borrowed_set_session p s y st :
  borrowed p (set_session s y st) =
  borrowed p st - from_option (held p) 0 (sessions st !! s) + held p y.
Proof.
  unfold borrowed. simpl. destruct (sessions st !! s) as [x|] eqn:Hs; simpl.
  - by apply fold_held_insert_Some.
  - rewrite fold_held_insert_None by done. lia.
Qed.

Lemma borrowed_ge_held p s x st :
  sessions st !! s = Some x → held p x ≤ borrowed p st.
Proof.
  intros Hs. unfold borrowed.
  rewrite (map_fold_delete_L (λ _ x acc, held p x + acc) 0 s x); [|intros; lia|done].
  pose proof (borrowed_nonneg p
    (State ∅ (delete s (sessions st)) ∅ [] 0%nat [] ∅ [] None ∅)) as H.
  unfold borrowed in H. simpl in H. lia.
Qed.

Lemma held_same_phones p st1 st2 ph dn1 dn2 :
  st1 ≠ Exited → st2 ≠ Exited →
  held p (Session st1 ph dn1) = held p (Session st2 ph dn2).
Proof. unfold held. simpl. by destruct st1, st2. Qed.

Lemma advance_not_exited rest : advance rest ≠ Exited.
Proof. by destruct rest. Qed.

Lemma held_append p st1 st2 ph dn1 dn2 phone :
  st1 ≠ Exited → st2 ≠ Exited →
  held p (Session st2 (ph ++ [phone]) dn2) =
  held p (Session st1 ph dn1) + (if decide (phone = p) then 1 else 0).
Proof.
  intros H1 H2. unfold held. simpl.
  rewrite filter_app, length_app. simpl.
  destruct st1, st2; try done; unfold filter; simpl; case_decide; simpl; lia.
Qed.

(** The watchdog's part of [consistent] only looks at which phones have an
    entry. *)
Lemma watch_frame timeout st st' :
  consistent timeout st →
  counter st' = counter st → streak st' = streak st →
  wd_cleaning st' = wd_cleaning st →
  (∀ p, is_entry (pool st' !! p) = false → is_entry (pool st !! p) = false) →
  (∀ p, 0 ≤ streak_of p st') ∧
  (∀ p, count_of p st' ≤ streak_of p st') ∧
  (∀ p, is_entry (pool st' !! p) = false → count_of p st' ≤ 0) ∧
  (∀ p, wd_cleaning st' = Some p → counter st' !! p = Some 0) ∧
  (∀ p, wd_cleaning st' = Some p → timeout ≤ 10 * streak_of p st').
Proof.
  intros [] Hc Hs Hw Hp. unfold count_of, streak_of in *.
  rewrite Hc, Hs, Hw. repeat split; auto.
Qed.

(** The pool's part only looks at the pool, the instances and the tasks. *)
Lemma pool_frame timeout st st' :
  consistent timeout st →
  pool st' = pool st → sessions st' = sessions st → tasks st' = tasks st →
  (∀ p c r, pool st' !! p = Some (Entry c r) → borrowed p st' ≤ r) ∧
  (∀ p, is_entry (pool st' !! p) = false → borrowed p st' = 0) ∧
  (∀ t s p, tasks st' !! t = Some (LoginTask s p false) → pool st' !! p = Some (Login t)) ∧
  (∀ t, is_Some (tasks st' !! t) → (t < size (tasks st'))%nat).
Proof.
  intros [] Hp Hs Ht. unfold borrowed in *. rewrite Hp, Hs, Ht.
  repeat split; auto.
Qed.

Lemma consistent_initial timeout : consistent timeout initial.
Proof.
  constructor; unfold count_of, streak_of, borrowed; simpl; try done.
  - intros t [x Hx]. by rewrite lookup_empty in Hx.
Qed.

Lemma consistent_new timeout s accounts st :
  consistent timeout st → sessions st !! s = None →
  consistent timeout (set_session s (Session (advance accounts) [] []) st).
Proof.
  intros Hc Hs.
  destruct (watch_frame timeout st (set_session s (Session (advance accounts) [] []) st))
    as (?&?&?&?&?); try done.
  assert (∀ p, borrowed p (set_session s (Session (advance accounts) [] []) st)
               = borrowed p st) as Hb.
  { intros p. rewrite borrowed_set_session, Hs. simpl.
    unfold held. simpl. destruct (advance accounts); simpl; lia. }
  destruct Hc. constructor; try done; simpl; intros.
  - rewrite Hb. eauto.
  - rewrite Hb. eauto.
Qed.

Lemma consistent_restat timeout s st1 st2 ph dn dn' st :
  consistent timeout st →
  sessions st !! s = Some (Session st1 ph dn) →
  st1 ≠ Exited → st2 ≠ Exited →
  consistent timeout (set_session s (Session st2 ph dn') st).
Proof.
  intros Hc Hs H1 H2.
  destruct (watch_frame timeout st (set_session s (Session st2 ph dn') st))
    as (?&?&?&?&?); try done.
  assert (∀ p, borrowed p (set_session s (Session st2 ph dn') st) = borrowed p st) as Hb.
  { intros p. rewrite borrowed_set_session, Hs. simpl.
    rewrite (held_same_phones p st1 st2 ph dn dn') by done. lia. }
  destruct Hc. constructor; try done; simpl; intros.
  - rewrite Hb. eauto.
  - rewrite Hb. eauto.
Qed.

Lemma is_entry_insert_entry (pl : gmap string pool_entry) phone c r p :
  is_entry (<[phone := Entry c r]> pl !! p) = false →
  p ≠ phone ∧ is_entry (pl !! p) = false.
Proof.
  destruct (decide (p = phone)) as [->|Hne].
  - by rewrite lookup_insert_eq.
  - by rewrite lookup_insert_ne.
Qed.

Lemma consistent_increment timeout s st1 st2 ph dn dn' phone c ref st :
  consistent timeout st →
  pool st !! phone = Some (Entry c ref) →
  sessions st !! s = Some (Session st1 ph dn) →
  st1 ≠ Exited → st2 ≠ Exited →
  consistent timeout
    (set_session s (Session st2 (ph ++ [phone]) dn')
       (set_pool <[phone := Entry c (ref + 1)]> st)).
Proof.
  intros Hc Hp Hs H1 H2.
  set (st' := set_session s _ _).
  destruct (watch_frame timeout st st') as (?&?&?&?&?); try done.
  { simpl. intros p Hpe. by apply is_entry_insert_entry in Hpe as [_ ?]. }
  assert (∀ p, borrowed p st' = borrowed p st + (if decide (phone = p) then 1 else 0)) as Hb.
  { intros p. unfold st'. rewrite borrowed_set_session. simpl. rewrite Hs. simpl.
    rewrite (held_append p st1 st2 ph dn dn') by done.
    unfold borrowed. simpl. lia. }
  destruct Hc. constructor; try done; simpl.
  - intros p c' r Hl. rewrite Hb. case_decide as Hd.
    + subst p. rewrite lookup_insert_eq in Hl. injection Hl as <- <-.
      specialize (refs_cover0 _ _ _ Hp). lia.
    + rewrite lookup_insert_ne in Hl by done.
      specialize (refs_cover0 _ _ _ Hl). lia.
  - intros p [Hne Hpe]%is_entry_insert_entry. rewrite Hb.
    rewrite decide_False by done. rewrite free_unborrowed0; [lia|done].
  - intros t s' p Ht. specialize (pending_in_pool0 _ _ _ Ht).
    rewrite lookup_insert_ne; [done|]. intros ->. congruence.
Qed.

Lemma consistent_create timeout s st1 st2 ph dn phone st :
  consistent timeout st →
  pool st !! phone = None →
  sessions st !! s = Some (Session st1 ph dn) →
  st1 ≠ Exited → st2 ≠ Exited →
  consistent timeout
    (State (<[phone := Login (fresh_task st)]> (pool st))
           (<[s := Session st2 ph dn]> (sessions st))
           (<[fresh_task st := LoginTask s phone false]> (tasks st))
           (logins st ++ [phone]) (next_client st) (stopped st)
           (counter st) (wd_todo st) (wd_cleaning st) (streak st)).
Proof.
  intros Hc Hp Hs H1 H2.
  set (st' := State _ _ _ _ _ _ _ _ _ _).
  destruct (watch_frame timeout st st') as (?&?&?&?&?); try done.
  { simpl. intros p. destruct (decide (p = phone)) as [->|Hne].
    - by rewrite Hp.
    - by rewrite lookup_insert_ne. }
  assert (∀ p, borrowed p st' = borrowed p st) as Hb.
  { intros p. pose proof (borrowed_set_session p s (Session st2 ph dn) st) as Hbs.
    rewrite Hs in Hbs. simpl in Hbs.
    rewrite (held_same_phones p st1 st2 ph dn dn) in Hbs by done.
    unfold borrowed in *. simpl in *. lia. }
  assert (tasks st !! fresh_task st = None) as Hfresh.
  { destruct (tasks st !! fresh_task st) eqn:Hf; [|done].
    destruct Hc. assert (fresh_task st < size (tasks st))%nat by eauto.
    unfold fresh_task in *. lia. }
  destruct Hc. constructor; try done; simpl.
  - intros p c r Hl. rewrite Hb. destruct (decide (p = phone)) as [->|Hne].
    + by rewrite lookup_insert_eq in Hl.
    + rewrite lookup_insert_ne in Hl by done. eauto.
  - intros p Hl. rewrite Hb. destruct (decide (p = phone)) as [->|Hne].
    + apply free_unborrowed0. by rewrite Hp.
    + rewrite lookup_insert_ne in Hl by done. eauto.
  - intros t s' p Ht. destruct (decide (t = fresh_task st)) as [->|Hne].
    + rewrite lookup_insert_eq in Ht. injection Ht as <- <-.
      by rewrite lookup_insert_eq.
    + rewrite lookup_insert_ne in Ht by done.
      specialize (pending_in_pool0 _ _ _ Ht).
      rewrite lookup_insert_ne; [done|]. intros ->. congruence.
  - intros t Ht. rewrite map_size_insert_None by done.
    destruct (decide (t = fresh_task st)) as [->|Hne].
    + unfold fresh_task. lia.
    + rewrite lookup_insert_ne in Ht by done.
      specialize (tasks_dense0 _ Ht). lia.
Qed.

Lemma consistent_acquire timeout s st st' :
  consistent timeout st → acquire s st = Some st' → consistent timeout st'.
Proof.
  intros Hc. unfold acquire.
  destruct (sessions st !! s) as [[[[|phone rest] [t|]| | |] ph dn]|] eqn:Hs; try done.
  destruct (pool st !! phone) as [[t|c ref]|] eqn:Hp; intros [= <-].
  - by eapply consistent_restat.
  - eapply consistent_increment; eauto using advance_not_exited.
  - eapply consistent_create; eauto using advance_not_exited.
Qed.

Lemma consistent_resume timeout s st st' :
  consistent timeout st → resume s st = Some st' → consistent timeout st'.
Proof.
  intros Hc. unfold resume.
  destruct (sessions st !! s) as [[[[|phone rest] [t|]| | |] ph dn]|] eqn:Hs; try done.
  destruct (tasks st !! t) as [[o q []]|]; try done.
  destruct (pool st !! phone) as [[t'|c ref]|] eqn:Hp; intros [= <-].
  - eapply consistent_restat; eauto using advance_not_exited.
  - eapply consistent_increment; eauto using advance_not_exited.
  - by eapply consistent_restat.
Qed.

Lemma consistent_loginer_done timeout t ok st st' :
  consistent timeout st → loginer_done t ok st = Some st' → consistent timeout st'.
Proof.
  intros Hc. unfold loginer_done.
  destruct (tasks st !! t) as [[s phone []]|] eqn:Ht; try done.
  assert (pool st !! phone = Some (Login t)) as Hp by (destruct Hc; eauto).
  assert (size (<[t := LoginTask s phone true]> (tasks st)) = size (tasks st)) as Hsize.
  { rewrite <- (insert_delete_eq (tasks st)).
    rewrite map_size_insert_None by apply lookup_delete_eq.
    rewrite <- (insert_delete_id (tasks st) t (LoginTask s phone false)) at 2 by done.
    by rewrite map_size_insert_None by apply lookup_delete_eq. }
  assert (∀ t' s' p (pl : gmap string pool_entry),
    (pl = pool st ∨ ∃ c, pl = <[phone := Entry c 1]> (pool st)) →
    <[t := LoginTask s phone true]> (tasks st) !! t' = Some (LoginTask s' p false) →
    pl !! p = Some (Login t')) as Hpend.
  { intros t' s' p pl Hpl Hl. destruct (decide (t' = t)) as [->|Hne].
    { by rewrite lookup_insert_eq in Hl. }
    rewrite lookup_insert_ne in Hl by done.
    assert (pool st !! p = Some (Login t')) as Hp' by (destruct Hc; eauto).
    destruct Hpl as [->|[c ->]]; [done|].
    rewrite lookup_insert_ne; [done|]. intros ->. congruence. }
  assert (∀ t', is_Some (<[t := LoginTask s phone true]> (tasks st) !! t') →
                (t' < size (<[t := LoginTask s phone true]> (tasks st)))%nat) as Hdense.
  { intros t' Hl. rewrite Hsize. destruct Hc. apply tasks_dense0.
    destruct (decide (t' = t)) as [Heq|Hne]; [subst t'; eauto|].
    by rewrite lookup_insert_ne in Hl. }
  destruct ok; intros [= <-].
  - (* a client: the entry (client, 1) *)
    set (c := next_client st).
    set (st1 := set_pool <[phone := Entry c 1]> st).
    set (st' := finish_task _ _ _ _).
    destruct (watch_frame timeout st st') as (?&?&?&?&?); try done.
    { unfold st', finish_task, put_done. simpl.
      destruct (sessions st !! s); by simpl. }
    { unfold st', finish_task, put_done. simpl.
      destruct (sessions st !! s); by simpl. }
    { unfold st', finish_task, put_done. simpl.
      destruct (sessions st !! s); by simpl. }
    { intros p Hpe.
      assert (pool st' = <[phone := Entry c 1]> (pool st)) as Hpl.
      { unfold st', finish_task, put_done. simpl.
        destruct (sessions st !! s); by simpl. }
      rewrite Hpl in Hpe. by apply is_entry_insert_entry in Hpe as [_ ?]. }
    assert (pool st' = <[phone := Entry c 1]> (pool st)) as Hpl.
    { unfold st', finish_task, put_done. simpl.
      destruct (sessions st !! s); by simpl. }
    assert (tasks st' = <[t := LoginTask s phone true]> (tasks st)) as Htk.
    { unfold st', finish_task, put_done. simpl.
      destruct (sessions st !! s); by simpl. }
    assert (∀ p, borrowed p st' ≤ borrowed p st + (if decide (phone = p) then 1 else 0)
                 ∧ (phone ≠ p → borrowed p st' = borrowed p st)) as Hb.
    { intros p. unfold st', finish_task, put_done. simpl.
      destruct (sessions st !! s) as [x|] eqn:Hs; simpl.
      - pose proof (borrowed_set_session p s
          (Session (stat x) (phones x ++ [phone]) (done x ++ [Some c])) st1) as Hbs.
        simpl in Hbs. rewrite Hs in Hbs. simpl in Hbs.
        unfold borrowed in *. simpl in *. rewrite Hbs.
        destruct x as [sx phx dnx]. simpl.
        assert (sx = Exited ∨ sx ≠ Exited) as [->|Hne]
          by (destruct sx; auto; by right).
        + unfold held. simpl. case_decide; (split; [lia | intros; try done; lia]).
        + rewrite (held_append p sx sx phx dnx) by done.
          case_decide; (split; [lia | intros; try done; lia]).
      - unfold borrowed. simpl. case_decide; (split; [lia | intros; try done; lia]). }
    assert (borrowed phone st = 0) as Hb0.
    { destruct Hc. apply free_unborrowed0. by rewrite Hp. }
    destruct Hc. constructor; try done.
    + intros p c' r. rewrite Hpl. intros Hl.
      destruct (Hb p) as [Hle Heq]. destruct (decide (phone = p)) as [<-|Hne].
      * rewrite lookup_insert_eq in Hl. injection Hl as <- <-. lia.
      * rewrite lookup_insert_ne in Hl by done. rewrite Heq by done. eauto.
    + intros p. rewrite Hpl. intros [Hne Hpe]%is_entry_insert_entry.
      destruct (Hb p) as [_ Heq]. rewrite Heq by done. eauto.
    + intros t' s' p. rewrite Hpl, Htk. apply Hpend. eauto.
    + intros t'. rewrite Htk. apply Hdense.
  - (* no client *)
    set (st' := finish_task _ _ _ _).
    assert (pool st' = pool st ∧ counter st' = counter st ∧ streak st' = streak st
            ∧ wd_cleaning st' = wd_cleaning st
            ∧ tasks st' = <[t := LoginTask s phone true]> (tasks st)) as (Hpl&?&?&?&Htk).
    { unfold st', finish_task, put_done. simpl.
      destruct (sessions st !! s); by simpl. }
    destruct (watch_frame timeout st st') as (?&?&?&?&?); try done.
    { intros p. by rewrite Hpl. }
    assert (∀ p, borrowed p st' = borrowed p st) as Hb.
    { intros p. unfold st', finish_task, put_done. simpl.
      destruct (sessions st !! s) as [x|] eqn:Hs; simpl; [|done].
      pose proof (borrowed_set_session p s
          (Session (stat x) (phones x ++ []) (done x ++ [None])) st) as Hbs.
      rewrite Hs in Hbs. simpl in Hbs. unfold borrowed in *. simpl in *.
      rewrite Hbs. rewrite app_nil_r. destruct x; simpl. unfold held. simpl. lia. }
    destruct Hc. constructor; try done.
    + intros p c' r. rewrite Hpl, Hb. eauto.
    + intros p. rewrite Hpl, Hb. eauto.
    + intros t' s' p. rewrite Hpl, Htk. apply Hpend. eauto.
    + intros t'. rewrite Htk. apply Hdense.
Qed.

(** *** Release *)


Lemma release_entry ph (pl : gmap string pool_entry) p c r :
  pl !! p = Some (Entry c r) →
  ∃ r', release ph pl !! p = Some (Entry c r') ∧ r' ≤ r.
Proof.
  revert pl r. induction ph as [|phone rest IH]; intros pl r Hp; simpl.
  - exists r. split; [done | lia].
  - destruct (pl !! phone) as [[t|c' ref]|] eqn:Hph.
    + exists r. split; [done | lia].
    + destruct (decide (phone = p)) as [->|Hne].
      * rewrite Hp in Hph. injection Hph as <- <-.
        destruct (IH (<[p := Entry c (r - 1)]> pl) (r - 1)) as (r' & ? & ?);
          [apply lookup_insert_eq|].
        exists r'. split; [done | lia].
      * apply IH. by rewrite lookup_insert_ne.
    + by apply IH.
Qed.

Lemma release_other ph (pl : gmap string pool_entry) p :
  is_entry (pl !! p) = false → release ph pl !! p = pl !! p.
Proof.
  revert pl. induction ph as [|phone rest IH]; intros pl Hp; simpl; [done|].
  destruct (pl !! phone) as [[t|c' ref]|] eqn:Hph; [done| |by apply IH].
  assert (phone ≠ p) by (intros ->; by rewrite Hph in Hp).
  rewrite IH; by rewrite lookup_insert_ne.
Qed.

Lemma release_counts ph (pl : gmap string pool_entry) p c r :
  (∀ x, x ∈ ph → is_entry (pl !! x) = true) →
  pl !! p = Some (Entry c r) →
  release ph pl !! p = Some (Entry c (r - Z.of_nat (length (filter (λ q, q = p) ph)))).
Proof.
  revert pl r. induction ph as [|phone rest IH]; intros pl r Hall Hp; simpl.
  - rewrite Hp. do 2 f_equal. lia.
  - assert (is_entry (pl !! phone) = true) as He by (apply Hall; left).
    destruct (pl !! phone) as [[t|c' ref]|] eqn:Hph; try done.
    assert (∀ x, x ∈ rest → is_entry (<[phone := Entry c' (ref - 1)]> pl !! x) = true) as Hall'.
    { intros x Hx. destruct (decide (x = phone)) as [->|Hne].
      - by rewrite lookup_insert_eq.
      - rewrite lookup_insert_ne by done. apply Hall. by right. }
    rewrite filter_cons. destruct (decide (phone = p)) as [->|Hne].
    + rewrite Hp in Hph. injection Hph as <- <-.
      rewrite (IH _ (r - 1)); [|done|apply lookup_insert_eq].
      do 2 f_equal. simpl. lia.
    + rewrite (IH _ r); [done|done|]. by rewrite lookup_insert_ne.
Qed.

Lemma consistent_aexit timeout s st st' :
  consistent timeout st → aexit s st = Some st' → consistent timeout st'.
Proof.
  intros Hc. unfold aexit.
  destruct (sessions st !! s) as [[[] ph dn]|] eqn:Hs; try done.
  intros [= <-]. set (st' := set_session s _ _).
  assert (∀ x, x ∈ ph → is_entry (pool st !! x) = true) as Hall.
  { intros x Hx. destruct (is_entry (pool st !! x)) eqn:He; [done|].
    destruct Hc. pose proof (free_unborrowed0 x He) as Hb.
    pose proof (borrowed_ge_held x s _ st Hs) as Hh.
    unfold held in Hh. simpl in Hh.
    assert (x ∈ filter (λ q, q = x) ph) as Hin by (by apply list_elem_of_filter).
    destruct (filter (λ q, q = x) ph); [by apply elem_of_nil in Hin|].
    simpl in Hh. lia. }
  assert (∀ p, is_entry (release ph (pool st) !! p) = is_entry (pool st !! p)) as Hent.
  { intros p. destruct (pool st !! p) as [[t|c r]|] eqn:Hp.
    - by rewrite release_other; rewrite Hp.
    - destruct (release_entry ph (pool st) p c r Hp) as (r' & -> & _). done.
    - by rewrite release_other; rewrite Hp. }
  destruct (watch_frame timeout st st') as (?&?&?&?&?); try done.
  { intros p. simpl. by rewrite Hent. }
  assert (∀ p, borrowed p st' =
               borrowed p st - Z.of_nat (length (filter (λ q, q = p) ph))) as Hb.
  { intros p. unfold st'. rewrite borrowed_set_session. simpl. rewrite Hs. simpl.
    unfold borrowed, held. simpl. lia. }
  destruct Hc. constructor; try done; simpl.
  - intros p c r Hl. rewrite Hb.
    destruct (pool st !! p) as [[t|c' r']|] eqn:Hp.
    + rewrite release_other in Hl by (by rewrite Hp). congruence.
    + rewrite (release_counts ph (pool st) p c' r' Hall Hp) in Hl.
      injection Hl as <- <-. specialize (refs_cover0 _ _ _ Hp). lia.
    + rewrite release_other in Hl by (by rewrite Hp). congruence.
  - intros p. rewrite Hent. intros He. rewrite Hb.
    pose proof (borrowed_nonneg p st') as Hnn. rewrite Hb in Hnn.
    rewrite (free_unborrowed0 p He) in *. lia.
  - intros t s' p Ht. specialize (pending_in_pool0 _ _ _ Ht).
    rewrite release_other; by rewrite pending_in_pool0.
Qed.

(** *** The watchdog *)

Lemma consistent_wake timeout st st' :
  consistent timeout st → wake st = Some st' → consistent timeout st'.
Proof.
  intros Hc. unfold wake.
  destruct (wd_todo st); [|done]. destruct (wd_cleaning st) eqn:Hw; [done|].
  intros [= <-].
  destruct (pool_frame timeout st
    (State (pool st) (sessions st) (tasks st) (logins st) (next_client st)
       (stopped st) (counter st) (pool_keys (pool st)) None
       (filter (λ kv, is_Some (pool st !! kv.1)) (streak st)))) as (?&?&?&?);
    try done.
  assert (∀ p, streak_of p
    (State (pool st) (sessions st) (tasks st) (logins st) (next_client st)
       (stopped st) (counter st) (pool_keys (pool st)) None
       (filter (λ kv, is_Some (pool st !! kv.1)) (streak st)))
    = if decide (is_Some (pool st !! p)) then streak_of p st else 0) as Hs.
  { intros p. unfold streak_of. simpl. rewrite map_lookup_filter.
    destruct (streak st !! p) as [k|] eqn:Hk; simpl.
    - case_decide as Hd; simpl.
      + by rewrite option_guard_True.
      + by rewrite option_guard_False.
    - by case_decide. }
  destruct Hc. constructor; try done.
  - intros p. rewrite Hs. case_decide; [auto | lia].
  - intros p. rewrite Hs. unfold count_of in *. simpl. case_decide as Hd; [auto|].
    apply free_uncounted0. destruct (pool st !! p); [|done].
    exfalso. apply Hd. eauto.
Qed.

Lemma consistent_visit timeout st st' :
  consistent timeout st → visit timeout st = Some st' → consistent timeout st'.
Proof.
  intros Hc. unfold visit.
  destruct (wd_todo st) as [|p rest]; [done|].
  destruct (wd_cleaning st) eqn:Hw; [done|].
  assert (∀ cn cl sk, let st1 := set_watch cn rest cl sk st in
    (∀ q, 0 ≤ default 0 (sk !! q)) →
    (∀ q, default 0 (cn !! q) ≤ default 0 (sk !! q)) →
    (∀ q, is_entry (pool st !! q) = false → default 0 (cn !! q) ≤ 0) →
    (∀ q, cl = Some q → cn !! q = Some 0 ∧ timeout ≤ 10 * default 0 (sk !! q)) →
    consistent timeout st1) as Hbuild.
  { intros cn cl sk st1 H1 H2 H3 H4.
    destruct (pool_frame timeout st st1) as (?&?&?&?); try done.
    constructor; try done; unfold count_of, streak_of; simpl; intros.
    - by apply H4.
    - by apply H4. }
  pose proof (streak_nonneg _ _ Hc) as Hsn.
  pose proof (counter_le_streak _ _ Hc) as Hcs.
  pose proof (free_uncounted _ _ Hc) as Hfu.
  unfold count_of, streak_of in *.
  destruct (pool st !! p) as [[t|c ref]|] eqn:Hp.
  - (* a task *)
    intros [= <-]. apply Hbuild; try done.
    + intros q. destruct (decide (q = p)) as [->|Hne].
      * by rewrite lookup_delete_eq.
      * rewrite lookup_delete_ne by done. apply Hsn.
    + intros q. destruct (decide (q = p)) as [->|Hne].
      * rewrite lookup_delete_eq. simpl. apply Hfu. by rewrite Hp.
      * rewrite lookup_delete_ne by done. apply Hcs.
  - destruct (ref <=? 0) eqn:Href.
    + set (sk := <[p := default 0 (streak st !! p) + 1]> (streak st)).
      assert (∀ q, 0 ≤ default 0 (sk !! q)) as Hsk.
      { intros q. unfold sk. destruct (decide (q = p)) as [->|Hne].
        - rewrite lookup_insert_eq. simpl. specialize (Hsn p). lia.
        - rewrite lookup_insert_ne by done. apply Hsn. }
      assert (∀ q k, default 0 (counter st !! p) + 1 = k ∨ k = 0 →
                     default 0 (<[p := k]> (counter st) !! q) ≤ default 0 (sk !! q)) as Hle.
      { intros q k Hk. unfold sk. destruct (decide (q = p)) as [->|Hne].
        - rewrite !lookup_insert_eq. simpl. specialize (Hcs p). specialize (Hsn p).
          destruct Hk; lia.
        - rewrite !lookup_insert_ne by done. apply Hcs. }
      assert (∀ q k, is_entry (pool st !! q) = false →
                     default 0 (<[p := k]> (counter st) !! q) ≤ 0) as Hfree.
      { intros q k Hq. destruct (decide (q = p)) as [->|Hne].
        - by rewrite Hp in Hq.
        - rewrite lookup_insert_ne by done. by apply Hfu. }
      destruct (counter st !! p) as [k|] eqn:Hk.
      * destruct (expired timeout (k + 1)) eqn:He; intros [= <-].
        -- apply Hbuild; try done.
           ++ intros q. apply Hle. by right.
           ++ intros q. apply Hfree.
           ++ intros q [= <-]. split; [apply lookup_insert_eq|].
              unfold sk. rewrite lookup_insert_eq. simpl.
              unfold expired in He. apply Z.leb_le in He.
              specialize (Hcs p). rewrite Hk in Hcs. simpl in Hcs. lia.
        -- apply Hbuild; try done.
           ++ intros q. apply Hle. left. by rewrite ?Hk.
           ++ intros q. apply Hfree.
      * intros [= <-]. apply Hbuild; try done.
        -- intros q. apply Hle. left. by rewrite ?Hk.
        -- intros q. apply Hfree.
    + intros [= <-]. apply Hbuild; try done.
      * intros q. destruct (decide (q = p)) as [->|Hne].
        -- by rewrite lookup_delete_eq.
        -- rewrite lookup_delete_ne by done. apply Hsn.
      * intros q. destruct (decide (q = p)) as [->|Hne].
        -- by rewrite !lookup_delete_eq.
        -- rewrite !lookup_delete_ne by done. apply Hcs.
      * intros q Hq. destruct (decide (q = p)) as [->|Hne].
        -- by rewrite lookup_delete_eq.
        -- rewrite lookup_delete_ne by done. by apply Hfu.
  - (* no entry *)
    intros [= <-]. apply Hbuild; try done.
    + intros q. destruct (decide (q = p)) as [->|Hne].
      * by rewrite lookup_delete_eq.
      * rewrite lookup_delete_ne by done. apply Hsn.
    + intros q. destruct (decide (q = p)) as [->|Hne].
      * rewrite lookup_delete_eq. simpl. apply Hfu. by rewrite Hp.
      * rewrite lookup_delete_ne by done. apply Hcs.
Qed.

Lemma consistent_clean_step timeout st st' :
  consistent timeout st → clean_step st = Some st' → consistent timeout st'.
Proof.
  intros Hc. unfold clean_step.
  destruct (wd_cleaning st) as [p|] eqn:Hw; [|done]. intros [= <-].
  pose proof (cleaning_counter _ _ Hc p Hw) as Hcnt.
  unfold clean. destruct (pool st !! p) as [[t|c ref]|] eqn:Hp.
  - destruct Hc. constructor; try done.
  - destruct (ref =? 0) eqn:Href.
    + apply Z.eqb_eq in Href. subst ref.
      destruct Hc. constructor; try done; simpl.
      * intros q c' r Hl. destruct (decide (q = p)) as [->|Hne].
        -- by rewrite lookup_delete_eq in Hl.
        -- rewrite lookup_delete_ne in Hl by done. by apply (refs_cover0 q c').
      * intros q Hq. destruct (decide (q = p)) as [->|Hne].
        -- pose proof (refs_cover0 p c 0 Hp).
           pose proof (borrowed_nonneg p st). unfold borrowed in *. simpl. lia.
        -- rewrite lookup_delete_ne in Hq by done. by apply free_unborrowed0.
      * intros t s q Ht. specialize (pending_in_pool0 _ _ _ Ht).
        rewrite lookup_delete_ne; [done|]. intros ->. congruence.
      * intros q Hq. unfold count_of. simpl. destruct (decide (q = p)) as [Heq|Hne].
        -- subst q. by rewrite Hcnt.
        -- rewrite lookup_delete_ne in Hq by done. by apply free_uncounted0.
    + destruct Hc. constructor; try done.
  - destruct Hc. constructor; try done.
Qed.

Lemma consistent_step timeout e st st' :
  consistent timeout st → step timeout e st = Some st' → consistent timeout st'.
Proof.
  intros Hc. destruct e; simpl.
  - destruct (sessions st !! s) eqn:Hs; [done|]. intros [= <-].
    by apply consistent_new.
  - by apply consistent_acquire.
  - by apply consistent_resume.
  - by apply consistent_loginer_done.
  - by apply consistent_aexit.
  - by apply consistent_wake.
  - by apply consistent_visit.
  - by apply consistent_clean_step.
Qed.

Lemma consistent_run timeout es st st' :
  consistent timeout st → run timeout es st = Some st' → consistent timeout st'.
Proof.
  revert st. induction es as [|e es IH]; intros st Hc; simpl.
  - by intros [= <-].
  - destruct (step timeout e st) as [st1|] eqn:He; [|done].
    apply IH. by eapply consistent_step.
Qed.

Lemma reachable_consistent timeout st : reachable timeout st → consistent timeout st.
Proof. intros [es Hr]. eapply consistent_run; [apply consistent_initial | done]. Qed.

(** *** Whole scans *)

Lemma visit_all_nil timeout st : visit_all timeout 0 st = Some st.
Proof. done. Qed.










(** *** Destruction *)







(** *** The watchdog on small inputs *)

Example idle_for_eleven_scans :
  let st := State {["A"%string := Entry 0%nat 0]} ∅ ∅ [] 1%nat [] ∅ [] None ∅ in
  (λ st', (pool st' !! "A"%string, stopped st', counter st' !! "A"%string))
    <$> scans 120 11 st
  = Some (Some (Entry 0%nat 0), [], Some 11).
Proof. vm_compute. reflexivity. Qed.

Example evicted_by_the_twelfth_scan :
  let st := State {["A"%string := Entry 0%nat 0]} ∅ ∅ [] 1%nat [] ∅ [] None ∅ in
  (λ st', (pool st' !! "A"%string, stopped st', counter st' !! "A"%string))
    <$> scans 120 12 st
  = Some (None, [0%nat], Some 0).
Proof. vm_compute. reflexivity. Qed.

Example in_use_is_kept :
  let st := State {["A"%string := Entry 0%nat 1]} ∅ ∅ [] 1%nat [] ∅ [] None ∅ in
  (λ st', (pool st' !! "A"%string, stopped st')) <$> scans 120 30 st
  = Some (Some (Entry 0%nat 1), []).
Proof. vm_compute. reflexivity. Qed.

End PoolFacts.

(** ** Relay requests *)

Section LinkFacts.
Import Link.

Lemma message_handler_future rq e future w :
  (message_handler rq e future w).1 =
  match future with Some t => Some t | None => resolves rq e end.
Proof.
  unfold message_handler, resolves.
  destruct (String.eqb (chat_id e) bot); simpl; [|by destruct future].
  destruct (parsed e) as [t|]; [|by destruct future].
  destruct (toml_get "command" t) as [c|]; [|by destruct future].
  destruct (String.eqb c (cmd rq)); [|by destruct future].
  destruct (condition rq) as [cond|]; [|by destruct future].
  destruct (cond t); by destruct future.
Qed.

Lemma deliver_future rq es future w :
  (deliver rq es future w).1 =
  match future with Some t => Some t | None => resolution rq es end.
Proof.
  revert future w. induction es as [|e es IH]; intros future w; simpl.
  - by destruct future.
  - pose proof (message_handler_future rq e future (arrive e w)) as Hm.
    destruct (message_handler rq e future (arrive e w)) as [f' w'].
    simpl in Hm. rewrite IH, Hm. destruct future; [done|].
    by destruct (resolves rq e).
Qed.

Lemma message_handler_world rq e future w :
  same_but_transcript w (message_handler rq e future (arrive e w)).2 ∧
  transcript (message_handler rq e future (arrive e w)).2 =
    if decide (chat_id e = bot)
    then filter (λ m, m ∉ [Incoming (chat_id e) (message e)]) (transcript w)
    else transcript w ++ [Incoming (chat_id e) (message e)].
Proof.
  unfold message_handler. destruct (String.eqb_spec (chat_id e) bot) as [Hb|Hb]; simpl.
  - split; [done|]. rewrite decide_True by done.
    rewrite filter_app, filter_cons_False, filter_nil, app_nil_r; [done|].
    intros H. apply H. left.
  - split; [done|]. by rewrite decide_False.
Qed.

Lemma same_but_transcript_trans w1 w2 w3 :
  same_but_transcript w1 w2 → same_but_transcript w2 w3 → same_but_transcript w1 w3.
Proof.
  unfold same_but_transcript. intros (?&?&?&?&?&?&?&?) (?&?&?&?&?&?&?&?).
  split_and!; congruence.
Qed.

Lemma bot_messages_cons e es :
  bot_messages (e :: es) =
  if decide (chat_id e = bot) then Incoming (chat_id e) (message e) :: bot_messages es
  else bot_messages es.
Proof. unfold bot_messages. rewrite filter_cons. by case_decide. Qed.

Lemma other_messages_cons e es :
  other_messages (e :: es) =
  if decide (chat_id e = bot) then other_messages es
  else Incoming (chat_id e) (message e) :: other_messages es.
Proof.
  unfold other_messages. rewrite filter_cons.
  destruct (decide (chat_id e = bot)).
  - by rewrite decide_False by tauto.
  - by rewrite decide_True.
Qed.

Lemma elem_of_bot_messages m es :
  m ∈ bot_messages es → ∃ id, m = Incoming bot id.
Proof.
  unfold bot_messages. intros (e & -> & He)%list_elem_of_fmap.
  apply list_elem_of_filter in He as [-> _]. eauto.
Qed.


Lemma filter_filter_not_in (l : list msg) (x : msg) (B : list msg) :
  filter (λ m, m ∉ B) (filter (λ m, m ∉ [x]) l) = filter (λ m, m ∉ x :: B) l.
Proof.
  induction l as [|y l IH]; [done|].
  rewrite !filter_cons. destruct (decide (y ∉ [x])) as [Hy|Hy].
  - rewrite filter_cons, IH.
    destruct (decide (y ∉ B)) as [HB|HB].
    + rewrite decide_True; [done|]. intros [->|?]%elem_of_cons; [|done].
      apply Hy. left.
    + rewrite decide_False; [done|]. intros H. apply HB. intros ?. apply H. by right.
  - rewrite IH, decide_False; [done|]. intros H. apply Hy.
    intros ->%list_elem_of_singleton. apply H. left.
Qed.

Lemma filter_not_in_nil (l : list msg) : filter (λ m, m ∉ []) l = l.
Proof.
  induction l as [|y l IH]; [done|].
  rewrite filter_cons_True by apply not_elem_of_nil. by rewrite IH.
Qed.

Lemma deliver_world rq es future w :
  same_but_transcript w (deliver rq es future w).2 ∧
  transcript (deliver rq es future w).2 =
    filter (λ m, m ∉ bot_messages es) (transcript w) ++ other_messages es.
Proof.
  revert future w. induction es as [|e es IH]; intros future w; simpl.
  - split; [done|]. unfold bot_messages, other_messages. simpl.
    by rewrite app_nil_r, filter_not_in_nil.
  - destruct (message_handler_world rq e future w) as [Hs Ht].
    destruct (message_handler rq e future (arrive e w)) as [f' w'].
    simpl in Hs, Ht. destruct (IH f' w') as [Hs' Ht'].
    split; [by eapply same_but_transcript_trans|].
    rewrite Ht', Ht, bot_messages_cons, other_messages_cons.
    case_decide as Hb.
    + by rewrite filter_filter_not_in.
    + rewrite filter_app, <- app_assoc. f_equal.
      rewrite filter_cons_True; [done|].
      intros (id & [= Hc _])%elem_of_bot_messages. done.
Qed.

Ltac attempt_cases rq env :=
  unfold attempt, ending; simpl;
  destruct (send env) eqn:Hsend; simpl;
  [ match goal with
    | |- context [deliver rq (arrivals env) None ?w1] =>
        pose proof (deliver_future rq (arrivals env) None w1) as Hfut;
        destruct (deliver_world rq (arrivals env) None w1)
          as [(Hca & Hcl & Hha & Hnh & Hnm & Hou & Hhi & Hlo) Htr];
        destruct (deliver rq (arrivals env) None w1) as [future w2];
        simpl in Hfut, Hca, Hcl, Hha, Hnh, Hnm, Hou, Hhi, Hlo, Htr;
        subst future;
        destruct (resolution rq (arrivals env)) as [results|] eqn:Hres; simpl
    end
  | | | ].

Lemma attempt_history instance rq env r w :
  history (attempt instance rq env r w).2 = history w ++ [ending rq env].
Proof.
  attempt_cases rq env.
  - destruct (carries_ok results); simpl; by rewrite Hhi.
  - destruct (r + 1 <? retries rq)%nat; [|destruct (fail rq)]; simpl; by rewrite Hhi.
  - done.
  - by destruct (fail rq).
  - done.
Qed.



Lemma attempt_control instance rq env r w :
  (attempt instance rq env r w).1 =
  match ending rq env with
  | EndReply v => Stop (Reply v)
  | EndTimeout => if (r + 1 <? retries rq)%nat then Continue else Stop TimedOut
  | EndFloodWait _ => Continue
  | EndUserBlocked => Stop Blocked
  | EndError => Stop Failed
  end.
Proof.
  attempt_cases rq env; try done.
  - destruct (r + 1 <? retries rq)%nat; [|destruct (fail rq)]; done.
  - by destruct (fail rq).
Qed.

Lemma attempt_clock instance rq env r w :
  clock (attempt instance rq env r w).2 =
  clock w +
  match ending rq env with
  | EndReply _ => reply_after env
  | EndTimeout => timeout rq + (if (r + 1 <? retries rq)%nat then 3 else 0)
  | EndFloodWait seconds => seconds
  | _ => 0
  end.
Proof.
  attempt_cases rq env.
  - destruct (carries_ok results); simpl; by rewrite Hcl.
  - destruct (r + 1 <? retries rq)%nat; [|destruct (fail rq)]; simpl;
      rewrite Hcl; lia.
  - done.
  - destruct (fail rq); simpl; lia.
  - simpl. lia.
Qed.

Lemma attempt_outbound instance rq env r w :
  outbound (attempt instance rq env r w).2 =
    (outbound w + match send env with Sent => 1 | _ => 0 end)%nat ∧
  next_message (attempt instance rq env r w).2 =
    (next_message w + match send env with Sent => 1 | _ => 0 end)%nat.
Proof.
  attempt_cases rq env.
  - destruct (carries_ok results); simpl; rewrite Hou, Hnm; lia.
  - destruct (r + 1 <? retries rq)%nat; [|destruct (fail rq)]; simpl;
      rewrite Hou, Hnm; lia.
  - lia.
  - destruct (fail rq); simpl; lia.
  - simpl. lia.
Qed.


Lemma attempt_log instance rq env r w :
  log (attempt instance rq env r w).2 =
  log w ++
  match ending rq env with
  | EndReply _ => []
  | EndTimeout =>
      if (r + 1 <? retries rq)%nat then [InfoTimeoutRetry (r + 1) (retries rq)]
      else if fail rq then [ErrorRequest]
      else [WarnTimeout (r + 1) (retries rq)]
  | EndFloodWait seconds => [InfoFloodWait seconds]
  | EndUserBlocked => if fail rq then [ErrorRequest] else [ErrorBlocked]
  | EndError => [ErrorRequest]
  end.
Proof.
  attempt_cases rq env; try done.
  - destruct (carries_ok results); simpl; by rewrite Hlo, app_nil_r.
  - destruct (r + 1 <? retries rq)%nat; [|destruct (fail rq)]; simpl; by rewrite Hlo.
  - by destruct (fail rq).
Qed.


(** *** The loop *)

Lemma attempts_from_unfold instance rq envs n r w :
  attempts_from instance rq envs (S n) r w =
  match (attempt instance rq (envs r) r w).1 with
  | Continue =>
      attempts_from instance rq envs n (S r) (attempt instance rq (envs r) r w).2
  | Stop f => (f, (attempt instance rq (envs r) r w).2)
  end.
Proof. simpl. by destruct (attempt instance rq (envs r) r w) as [[|f] w']. Qed.


Lemma attempts_since_app w w' hs :
  history w' = history w ++ hs → attempts_since w w' = hs.
Proof. unfold attempts_since. intros ->. by rewrite drop_app_length. Qed.








(** *** Timeouts *)

Lemma times_out_ending rq env : times_out rq env → ending rq env = EndTimeout.
Proof. intros [Hs Hr]. unfold ending. by rewrite Hs, Hr. Qed.



Lemma attempts_from_all_time_out instance rq envs n r w :
  (r + S n = retries rq)%nat →
  (∀ i, (i < retries rq)%nat → times_out rq (envs i)) →
  let res := attempts_from instance rq envs (S n) r w in
  res.1 = TimedOut ∧
  history res.2 = history w ++ replicate (S n) EndTimeout ∧
  outbound res.2 = (outbound w + S n)%nat.
Proof.
  revert r w. induction n as [|n IH]; intros r w Hrn Hall; cbv zeta;
    rewrite attempts_from_unfold;
    pose proof (attempt_history instance rq (envs r) r w) as Hh;
    pose proof (attempt_control instance rq (envs r) r w) as Hk;
    destruct (attempt_outbound instance rq (envs r) r w) as [Ho _];
    assert (times_out rq (envs r)) as Hto by (apply Hall; lia);
    rewrite (times_out_ending _ _ Hto) in Hh, Hk;
    destruct Hto as [Hsent _]; rewrite Hsent in Ho;
    rewrite Hk.
  - assert ((r + 1 <? retries rq)%nat = false) as -> by (apply Nat.ltb_ge; lia).
    simpl. rewrite Hh, Ho. done.
  - assert ((r + 1 <? retries rq)%nat = true) as -> by (apply Nat.ltb_lt; lia).
    destruct (IH (S r) (attempt instance rq (envs r) r w).2) as (H1 & H2 & H3);
      [lia | done |].
    split_and!; [done | |].
    + rewrite H2, Hh, <- app_assoc. done.
    + rewrite H3, Ho. lia.
Qed.



(** *** The relay bot is blocked *)

Lemma attempts_from_log_blocked instance rq envs n r w :
  let res := attempts_from instance rq envs n r w in
  ∃ l, log res.2 = log w ++ l ∧
       (ErrorBlocked ∈ l ↔ res.1 = Blocked ∧ fail rq = false).
Proof.
  revert r w. induction n as [|n IH]; intros r w; cbv zeta.
  - exists []. simpl. rewrite app_nil_r. split; [done|].
    split; [by intros ?%elem_of_nil | by intros [? _]].
  - rewrite attempts_from_unfold.
    pose proof (attempt_log instance rq (envs r) r w) as Hl.
    pose proof (attempt_control instance rq (envs r) r w) as Hk.
    destruct (attempt instance rq (envs r) r w) as [ctl w']. simpl in *.
    destruct (ending rq (envs r)) as [v| |seconds| |]; subst ctl; simpl.
    + exists []. rewrite Hl. split; [done|].
      split; [by intros ?%elem_of_nil | by intros [? _]].
    + destruct (r + 1 <? retries rq)%nat.
      * simpl. destruct (IH (S r) w') as (l & Hl' & Hiff). cbv zeta in Hl', Hiff.
        exists (InfoTimeoutRetry (r + 1) (retries rq) :: l).
        rewrite Hl', Hl, <- app_assoc. split; [done|].
        rewrite <- Hiff, elem_of_cons.
        split; [intros [H|?]; [discriminate H | done] | by right].
      * eexists. split; [exact Hl|]. simpl.
        split; [|by intros [? _]].
        destruct (fail rq); by intros [?|?%elem_of_nil]%elem_of_cons.
    + simpl. destruct (IH (S r) w') as (l & Hl' & Hiff). cbv zeta in Hl', Hiff.
      exists (InfoFloodWait seconds :: l).
      rewrite Hl', Hl, <- app_assoc. split; [done|].
      rewrite <- Hiff, elem_of_cons.
        split; [intros [H|?]; [discriminate H | done] | by right].
    + eexists. split; [exact Hl|]. simpl. destruct (fail rq).
      * split; [by intros [?|?%elem_of_nil]%elem_of_cons | by intros [_ ?]].
      * split; [done | intros _; left].
    + eexists. split; [exact Hl|]. simpl.
      split; [by intros [?|?%elem_of_nil]%elem_of_cons | by intros [? _]].
Qed.

(** C9.  When sending raises UserBlockedError at some iteration of the loop,
    that attempt is the last one: no message was sent, no time is spent, and
    the call raises the error when [fail] and otherwise logs the blocked-bot
    error and returns [None].  That log entry appears in no other case. *)
Theorem post_peer_blocked instance rq envs n r w :
  send (envs r) = SendUserBlocked →
  let res := attempts_from instance rq envs (S n) r w in
  res.1 = Blocked ∧
  outcome_of rq res.1 = (if fail rq then Raises BlockedError else Returns None) ∧
  history res.2 = history w ++ [EndUserBlocked] ∧
  outbound res.2 = outbound w ∧
  clock res.2 = clock w ∧
  log res.2 = log w ++ (if fail rq then [ErrorRequest] else [ErrorBlocked]) ∧
  ∀ envs' m r' w',
    ErrorBlocked ∈ drop (length (log w'))
                     (log (attempts_from instance rq envs' m r' w').2) ↔
    (attempts_from instance rq envs' m r' w').1 = Blocked ∧ fail rq = false.
Proof.
  intros Hsend res. unfold res. rewrite attempts_from_unfold.
  assert (ending rq (envs r) = EndUserBlocked) as He
    by (unfold ending; by rewrite Hsend).
  pose proof (attempt_history instance rq (envs r) r w) as Hh.
  pose proof (attempt_control instance rq (envs r) r w) as Hk.
  pose proof (attempt_clock instance rq (envs r) r w) as Hc.
  pose proof (attempt_log instance rq (envs r) r w) as Hl.
  destruct (attempt_outbound instance rq (envs r) r w) as [Ho _].
  rewrite He in Hh, Hk, Hc, Hl. rewrite Hsend in Ho. rewrite Hk. simpl.
  split_and!; try done; [lia | lia |].
  intros envs' m r' w'.
  destruct (attempts_from_log_blocked instance rq envs' m r' w') as (l & Hl' & Hiff).
  cbv zeta in Hl', Hiff. by rewrite Hl', drop_app_length.
Qed.

Lemma post_peer_blocked_witness :
  let rq := default_request "/auth x id" false in
  let res := post "id" rq blocked empty_world in
  res.1 = Blocked ∧ outcome_of rq res.1 = Returns None ∧
  history res.2 = [EndUserBlocked] ∧ log res.2 = [ErrorBlocked].
Proof.
  intros rq res.
  destruct (post_peer_blocked "id" rq blocked 2 0 empty_world eq_refl)
    as (H1 & H2 & H3 & _ & _ & H4 & _).
  split_and!; [exact H1 | exact H2 | exact H3 | exact H4].
Defined.

(** *** Rate limits *)




(** *** Requests on small inputs *)

Example rate_limit_then_two_timeouts :
  let res := post "id" (default_request "/log id x" false) (flood_then_silence 5) empty_world in
  (res.1, history res.2, clock res.2, outbound res.2, transcript res.2, handlers res.2)
  = (TimedOut, [EndFloodWait 5; EndTimeout; EndTimeout], 5 + 20 + 3 + 20, 2%nat, [], []).
Proof. vm_compute. reflexivity. Qed.

Example reply_is_cached :
  let ok := [("command", "/auth x id"); ("status", "ok")]%string in
  let env := λ _ : nat, AttemptEnv Sent [Inbound "other" None 1; Inbound bot None 2;
                                         Inbound bot (Some ok) 3] 1 in
  let rq := default_request "/auth x id" false in
  let res := post "id" rq env empty_world in
  (res.1, cache_get (cache_key "id" rq) res.2, outbound res.2, transcript res.2,
   (post "id" rq (flood_then_silence 5) res.2).1)
  = (Reply ok, Some ok, 1%nat, [Incoming "other" 1], FromCache ok).
Proof. vm_compute. reflexivity. Qed.

End LinkFacts.

(** ** Dispatcher: passes, the worker's queue and the registry *)

Section DispatcherMore.
Import Dispatcher.

(** *** The end and the log of a pass *)



(** *** The queue *)

Lemma delivery_no_dequeue p q hs : Dequeued q ∉ delivery p hs.
Proof.
  unfold delivery. intros [H|H]%elem_of_app.
  - apply list_elem_of_fmap in H as (? & ? & ?). done.
  - destruct (first_accepting p hs); [|by apply elem_of_nil in H].
    apply elem_of_cons in H as [?|H]; [done|].
    apply list_elem_of_singleton in H. done.
Qed.

Lemma handler_worker_dequeues ps rest st q :
  Dequeued q ∈ trace (handler_worker (map Some ps ++ None :: rest) st).2 →
  Dequeued q ∈ trace st ∨ q ∈ ps.
Proof.
  revert st. induction ps as [|p ps IH]; intros st; simpl; [auto|].
  destruct (dispatch p (emit (Dequeued p) (await st))) as [[] st'] eqn:Hd.
  - intros H. apply IH in H as [H|H]; [|right; by right].
    assert (Ht := dispatch_trace p (emit (Dequeued p) (await st))).
    rewrite Hd in Ht. simpl in Ht. rewrite await_trace in Ht.
    rewrite Ht in H. rewrite !elem_of_app in H.
    destruct H as [[H|H]|H]; [by left| |by apply delivery_no_dequeue in H].
    apply list_elem_of_singleton in H. simplify_eq. right. by left.
  - simpl. intros H.
    assert (Ht := dispatch_trace p (emit (Dequeued p) (await st))).
    rewrite Hd in Ht. simpl in Ht. rewrite await_trace in Ht.
    rewrite Ht in H. rewrite !elem_of_app in H.
    destruct H as [[H|H]|H]; [by left| |by apply delivery_no_dequeue in H].
    apply list_elem_of_singleton in H. simplify_eq. right. by left.
Qed.

(** X2.  The worker takes no packet after the stop sentinel: what it does on
    a queue does not depend on what follows the first [None]; it ends stopped
    or cancelled, not waiting; and it dequeues no packet but those in front of
    the sentinel. *)
Theorem worker_stops_at_sentinel ps rest st :
  let res := handler_worker (map Some ps ++ None :: rest) st in
  res = handler_worker (map Some ps ++ [None]) st ∧
  res.1 ≠ WorkerWaiting ∧
  ∀ q, Dequeued q ∈ trace res.2 → Dequeued q ∈ trace st ∨ q ∈ ps.
Proof.
  intros res. subst res. split_and!.
  - revert st. induction ps as [|p ps IH]; intros st; simpl; [done|].
    destruct (dispatch p (emit (Dequeued p) (await st))) as [[] st']; [apply IH|done].
  - revert st. induction ps as [|p ps IH]; intros st; simpl; [done|].
    destruct (dispatch p (emit (Dequeued p) (await st))) as [[] st']; [apply IH|done].
  - intros q. apply handler_worker_dequeues.
Qed.

Lemma dispatch_static p reg tr lg :
  (dispatch p (State reg [] tr lg)).2 =
  State reg [] (tr ++ delivery p (traversal reg)) (lg ++ pass_log p (traversal reg)).
Proof.
  assert (Ht := dispatch_trace p (State reg [] tr lg)).
  assert (Hl := run_groups_log p (map snd reg) (State reg [] tr lg)).
  assert (Ha := run_groups_advanced p (map snd reg) (State reg [] tr lg)).
  unfold dispatch in *. destruct Ha as [Hg Hs]. simpl in *.
  destruct (run_groups p (map snd reg) (State reg [] tr lg)) as [e [g s t l]].
  simpl in *. rewrite take_nil in Hg. rewrite drop_nil in Hs. simpl in Hg.
  by subst.
Qed.

(** X3.  With no registration task pending and no callback cancelled, the
    worker handles the packets one after the other against the same registry:
    its trace is, for each packet in order, the dequeue followed by the
    delivery of that packet, its log is the logs of the passes in order, the
    registry is as before, and the worker ends waiting for the next packet. *)
Theorem worker_static_registry ps reg tr lg :
  (∀ p, p ∈ ps → cancels p (traversal reg) = false) →
  handler_worker (map Some ps) (State reg [] tr lg) =
  (WorkerWaiting,
   State reg []
     (tr ++ concat (map (λ p, Dequeued p :: delivery p (traversal reg)) ps))
     (lg ++ concat (map (λ p, pass_log p (traversal reg)) ps))).
Proof.
  revert tr lg. induction ps as [|p ps IH]; intros tr lg Hc; simpl.
  - by rewrite !app_nil_r.
  - unfold await, emit. simpl.
    assert (Hs := dispatch_static p reg (tr ++ [Dequeued p]) lg).
    assert (He : (dispatch p (State reg [] (tr ++ [Dequeued p]) lg)).1 = PassDone).
    { unfold dispatch. rewrite run_groups_exit. simpl.
      change (concat (map snd reg)) with (traversal reg).
      rewrite Hc; [done|by left]. }
    destruct (dispatch p (State reg [] (tr ++ [Dequeued p]) lg)) as [e st'].
    simpl in *. subst. rewrite IH; [|intros; apply Hc; by right].
    by rewrite <- !app_assoc.
Qed.

Lemma worker_static_registry_witness :
  let h := constant_handler 1%nat Raw FilterTruthy CallbackStopPropagation in
  let p := Packet 7%nat 0%nat 0%nat in
  handler_worker (map Some [p; p]) (State [(0, [h])] [] [] []) =
  (WorkerWaiting,
   State [(0, [h])] []
     ([] ++ concat (map (λ p, Dequeued p :: delivery p (traversal [(0, [h])])) [p; p]))
     ([] ++ concat (map (λ p, pass_log p (traversal [(0, [h])])) [p; p]))).
Proof.
  intros h p. apply (worker_static_registry [p; p] [(0, [h])] [] []).
  intros q Hq. reflexivity.
Defined.

(** *** Registration and removal *)

Lemma dict_alter_compose f f' g d :
  dict_alter f' g (dict_alter f g d) = dict_alter (f' ∘ f) g d.
Proof.
  induction d as [|[k hs] d IH]; [done|]. simpl.
  destruct (Z.eqb k g) eqn:Hk; simpl; rewrite Hk; [done|]. by rewrite IH.
Qed.

Lemma dict_alter_id f g d :
  (∀ hs, dict_get g d = Some hs → f hs = hs) → dict_alter f g d = d.
Proof.
  induction d as [|[k hs] d IH]; [done|]. simpl.
  destruct (Z.eqb k g) eqn:Hk; intros Hf.
  - by rewrite Hf.
  - by rewrite IH.
Qed.

Lemma same_handler_refl h : same_handler h h = true.
Proof. unfold same_handler. apply Nat.eqb_refl. Qed.

Lemma list_remove_snoc h hs :
  list_mem h hs = false → list_remove h (hs ++ [h]) = hs.
Proof.
  induction hs as [|x hs IH]; simpl.
  - by rewrite same_handler_refl.
  - intros [Hx Hm]%orb_false_elim. rewrite Hx. by rewrite IH.
Qed.

Lemma dict_get_new_group g d :
  NoDup d.*1 → dict_get g d = None →
  dict_get g (sorted_items (d ++ [(g, [])])) = Some [].
Proof.
  intros Hnd Hg. rewrite dict_get_sorted_items.
  - rewrite dict_get_app_new, Hg. by rewrite Z.eqb_refl.
  - rewrite fmap_app. simpl. apply NoDup_app. split_and!; [done| |apply NoDup_singleton].
    intros x Hx ->%list_elem_of_singleton. by apply dict_get_None in Hg.
Qed.

(** X4.  Registering a handler that its group does not hold and removing it
    again gives the registry back, except that a group created for the
    handler stays registered, empty; the removal succeeds, and removing the
    handler once more raises ValueError and changes nothing. *)
Theorem add_then_remove_handler h g d :
  NoDup d.*1 →
  list_mem h (default [] (dict_get g d)) = false →
  let d' := if dict_mem g d then d else sorted_items (d ++ [(g, [])]) in
  remove_handler h g (add_handler h g d) = (d', TaskDone) ∧
  dict_mem g d' = true ∧
  remove_handler h g d' = (d', TaskValueError).
Proof.
  intros Hnd Hm d'. subst d'. unfold add_handler, remove_handler, dict_mem.
  destruct (dict_get g d) as [hs|] eqn:Hg; simpl in Hm.
  - rewrite dict_get_alter_eq, Hg. simpl.
    assert (list_mem h (hs ++ [h]) = true) as ->.
    { unfold list_mem. rewrite existsb_app. simpl.
      rewrite same_handler_refl. by rewrite orb_true_r. }
    rewrite dict_alter_compose, Hm. split_and!; [|done..].
    f_equal. apply dict_alter_id. intros hs' ?. simplify_eq. simpl.
    by apply list_remove_snoc.
  - assert (Hn := dict_get_new_group g d Hnd Hg).
    rewrite dict_get_alter_eq, Hn. simpl. rewrite same_handler_refl. simpl.
    rewrite dict_alter_compose. split_and!; [|done..].
    f_equal. apply dict_alter_id. intros hs' ?. simplify_eq. simpl.
    by rewrite same_handler_refl.
Qed.

Lemma add_then_remove_handler_witness :
  let h := constant_handler 1%nat Raw FilterTruthy CallbackReturns in
  let h' := constant_handler 2%nat Raw FilterTruthy CallbackReturns in
  let d := [(0, [h'])] in
  let d' := if dict_mem 3 d then d else sorted_items (d ++ [(3, [])]) in
  remove_handler h 3 (add_handler h 3 d) = (d', TaskDone) ∧
  dict_mem 3 d' = true ∧
  remove_handler h 3 d' = (d', TaskValueError).
Proof.
  intros h h' d.
  apply (add_then_remove_handler h 3 d).
  - simpl. apply NoDup_singleton.
  - reflexivity.
Defined.

Lemma add_handler_keys_elem h g d k :
  k ∈ (add_handler h g d).*1 ↔ k ∈ d.*1 ∨ k = g.
Proof.
  unfold add_handler. rewrite dict_alter_keys. unfold dict_mem.
  destruct (dict_get g d) as [hs|] eqn:Hg.
  - split; [auto|]. intros [?| ->]; [done|].
    destruct (decide (g ∈ d.*1)) as [|Hn]; [done|].
    apply dict_get_None in Hn. congruence.
  - rewrite (sorted_items_perm (d ++ [(g, [])])), fmap_app, elem_of_app. simpl.
    by rewrite list_elem_of_singleton.
Qed.

Lemma run_registrations_keys rs d k :
  k ∈ (run_registrations rs d).*1 ↔ k ∈ d.*1 ∨ k ∈ added_groups rs.
Proof.
  revert d. induction rs as [|r rs IH]; intros d; simpl.
  - split; [auto|]. intros [?|H]; [done|]. by apply elem_of_nil in H.
  - unfold run_registrations in IH. rewrite IH. destruct r as [h g|h g]; simpl.
    + rewrite add_handler_keys_elem, elem_of_cons. tauto.
    + rewrite remove_handler_keys. done.
Qed.

Lemma dict_get_lt g d :
  Forall (λ k, g < k) d.*1 → dict_get g d = None.
Proof.
  intros H. apply dict_get_None. intros Hin.
  rewrite Forall_forall in H. apply H in Hin. lia.
Qed.

Lemma sorted_dict_ext (d d' : groups_t) :
  StronglySorted Z.lt d.*1 → StronglySorted Z.lt d'.*1 →
  (∀ g, dict_get g d = dict_get g d') → d = d'.
Proof.
  revert d'. induction d as [|[k hs] d IH]; intros [|[k' hs'] d'] Hs Hs' He.
  - done.
  - specialize (He k'). simpl in He. by rewrite Z.eqb_refl in He.
  - specialize (He k). simpl in He. by rewrite Z.eqb_refl in He.
  - simpl in Hs, Hs'.
    apply StronglySorted_inv in Hs as [Hs Hk].
    apply StronglySorted_inv in Hs' as [Hs' Hk'].
    assert (k = k') as Hkk.
    { destruct (Z.lt_trichotomy k k') as [Hlt|[?|Hlt]]; [|done|].
      - assert (H := He k). simpl in H. rewrite Z.eqb_refl in H.
        destruct (Z.eqb_spec k' k); [lia|].
        rewrite dict_get_lt in H; [done|].
        eapply Forall_impl; [exact Hk'|]. simpl. lia.
      - assert (H := He k'). simpl in H. rewrite Z.eqb_refl in H.
        destruct (Z.eqb_spec k k'); [lia|].
        rewrite dict_get_lt in H; [done|].
        eapply Forall_impl; [exact Hk|]. simpl. lia. }
    subst k'. assert (H := He k). simpl in H. rewrite Z.eqb_refl in H. simplify_eq.
    f_equal. apply IH; [done..|].
    intros g. specialize (He g). simpl in He.
    destruct (Z.eqb_spec k g) as [Heq|]; [subst g|done].
    rewrite !dict_get_lt; done.
Qed.

(** X5.  The registry depends only on what is registered group by group: two
    sequences of registration tasks that add to the same groups and leave each
    group with the same handler list give the same registry, in whatever order
    the tasks of different groups ran. *)
Theorem registry_determined rs rs' :
  (∀ g, registered g rs = registered g rs') →
  (∀ g, g ∈ added_groups rs ↔ g ∈ added_groups rs') →
  run_registrations rs [] = run_registrations rs' [].
Proof.
  intros Hr Ha.
  assert (Hs : ∀ l, StronglySorted Z.lt (run_registrations l []).*1).
  { intros l. apply run_registrations_ordered. constructor. }
  apply sorted_dict_ext; [apply Hs..|]. intros g.
  assert (Hg := run_registrations_get g rs [] ltac:(constructor)).
  assert (Hg' := run_registrations_get g rs' [] ltac:(constructor)).
  simpl in Hg, Hg'. fold (registered g rs) in Hg. fold (registered g rs') in Hg'.
  rewrite Hr, <- Hg' in Hg.
  assert (Hk : g ∈ (run_registrations rs []).*1 ↔ g ∈ (run_registrations rs' []).*1).
  { rewrite !run_registrations_keys, Ha. done. }
  destruct (dict_get g (run_registrations rs [])) as [hs|] eqn:H1,
           (dict_get g (run_registrations rs' [])) as [hs'|] eqn:H2;
    simpl in Hg; [by subst| | |done].
  - exfalso. apply dict_get_None in H2. apply H2, Hk.
    destruct (decide (g ∈ (run_registrations rs []).*1)) as [|Hn]; [done|].
    apply dict_get_None in Hn. congruence.
  - exfalso. apply dict_get_None in H1. apply H1, Hk.
    destruct (decide (g ∈ (run_registrations rs' []).*1)) as [|Hn]; [done|].
    apply dict_get_None in Hn. congruence.
Qed.

Lemma registry_determined_witness :
  let h1 := constant_handler 1%nat Raw FilterTruthy CallbackReturns in
  let h2 := constant_handler 2%nat Raw FilterTruthy CallbackReturns in
  run_registrations [AddHandler h1 5; AddHandler h2 0] [] =
  run_registrations [AddHandler h2 0; AddHandler h1 5] [].
Proof.
  intros h1 h2.
  apply (registry_determined [AddHandler h1 5; AddHandler h2 0]
                             [AddHandler h2 0; AddHandler h1 5]).
  - intros g. unfold registered. cbn [fold_left registered_step].
    destruct (Z.eqb_spec 5 g), (Z.eqb_spec 0 g); try reflexivity; lia.
  - intros g. simpl. rewrite !elem_of_cons. tauto.
Defined.

End DispatcherMore.

(** ** Session pool: held clients, failed logins, the [done] queue and cleaning *)

Section PoolMore.
Import ClientsSession.

(** *** Held clients *)



Lemma set_session_lookup s y st s' :
  sessions (set_session s y st) !! s' = if decide (s = s') then Some y else sessions st !! s'.
Proof.
  simpl. case_decide as H; [subst; by rewrite lookup_insert_eq|by rewrite lookup_insert_ne].
Qed.


Lemma grows_refl x : grows x x.
Proof. split_and!; [done|exists []; by rewrite app_nil_r..]. Qed.


Lemma put_done_session s item ph st s' x :
  sessions st !! s' = Some x →
  ∃ x', sessions (put_done s item ph st) !! s' = Some x' ∧ grows x x'.
Proof.
  intros Hs. unfold put_done.
  destruct (sessions st !! s) as [x0|] eqn:Hs0; [|exists x; split; [done|apply grows_refl]].
  rewrite set_session_lookup. case_decide as Heq.
  - subst s'. simplify_eq. eexists. split; [done|].
    split_and!; simpl; eauto.
  - exists x. split; [done|apply grows_refl].
Qed.

Lemma step_session timeout e st st' s x :
  step timeout e st = Some st' → sessions st !! s = Some x →
  ∃ x', sessions st' !! s = Some x' ∧ grows x x'.
Proof.
  intros He Hs. destruct e as [s0 accounts|s0|s0|t ok|s0| | |]; simpl in He.
  - destruct (sessions st !! s0) eqn:Hs0; [done|]. simplify_eq.
    rewrite set_session_lookup. case_decide; [congruence|].
    exists x. split; [done|apply grows_refl].
  - unfold acquire in He.
    destruct (sessions st !! s0) as [[sx ph dn]|] eqn:Hs0; [|done].
    destruct sx as [todo w| | |]; try done.
    destruct todo as [|phone rest]; [done|]. destruct w; [done|].
    destruct (pool st !! phone) as [[t|c ref]|]; simplify_eq.
    + rewrite set_session_lookup. case_decide as Heq.
      * subst. simplify_eq. eexists. split; [done|].
        split_and!; simpl; [done|exists []; by rewrite app_nil_r..].
      * exists x. split; [done|apply grows_refl].
    + rewrite set_session_lookup. case_decide as Heq.
      * subst. simplify_eq. eexists. split; [done|].
        split_and!; simpl; [done|eauto..].
      * exists x. split; [done|apply grows_refl].
    + simpl. destruct (decide (s0 = s)) as [Heq|Hne].
      * subst. rewrite lookup_insert_eq. simplify_eq. eexists. split; [done|].
        split_and!; simpl; [done|exists []; by rewrite app_nil_r..].
      * rewrite lookup_insert_ne by done. exists x. split; [done|apply grows_refl].
  - unfold resume in He.
    destruct (sessions st !! s0) as [[sx ph dn]|] eqn:Hs0; [|done].
    destruct sx as [todo w| | |]; try done.
    destruct todo as [|phone rest]; [done|]. destruct w as [t|]; [|done].
    destruct (tasks st !! t) as [[o q []]|]; try done.
    destruct (pool st !! phone) as [[t'|c ref]|]; simplify_eq.
    all: rewrite set_session_lookup; case_decide as Heq;
      [subst; simplify_eq; eexists; split; [done|];
       split_and!; simpl; [done|try (exists []; by rewrite app_nil_r); eauto..]
      |exists x; split; [done|apply grows_refl]].
  - unfold loginer_done in He.
    destruct (tasks st !! t) as [[o q []]|]; try done.
    destruct ok; simplify_eq; simpl.
    + apply (put_done_session o (Some (next_client st)) [q]
               (set_pool <[q:=Entry (next_client st) 1]> st) s x Hs).
    + apply (put_done_session o None [] st s x Hs).
  - unfold aexit in He.
    destruct (sessions st !! s0) as [[sx ph dn]|] eqn:Hs0; [|done].
    destruct sx; try done. simplify_eq.
    rewrite set_session_lookup. case_decide as Heq.
    + subst. simplify_eq. eexists. split; [done|].
      split_and!; simpl; [done|exists []; by rewrite app_nil_r..].
    + exists x. split; [done|apply grows_refl].
  - unfold wake in He. destruct (wd_todo st), (wd_cleaning st); simplify_eq.
    exists x. split; [done|apply grows_refl].
  - unfold visit in He. destruct (wd_todo st) as [|p rest], (wd_cleaning st); try done.
    destruct (pool st !! p) as [[t|c ref]|]; simplify_eq;
      [| |]; try (exists x; split; [done|apply grows_refl]).
    destruct (ref <=? 0); [|simplify_eq; exists x; split; [done|apply grows_refl]].
    destruct (counter st !! p); [destruct (expired _ _)|]; simplify_eq;
      exists x; (split; [done|apply grows_refl]).
  - unfold clean_step in He. destruct (wd_cleaning st) as [p|]; [|done]. simplify_eq.
    simpl. unfold clean. destruct (pool st !! p) as [[t|c ref]|];
      try (exists x; split; [done|apply grows_refl]).
    destruct (ref =? 0); exists x; (split; [done|apply grows_refl]).
Qed.





(** *** Giving back, and a leak *)










(** *** Failed logins *)






(** *** The [done] queue *)

Lemma pending_insert_new s (m : gmap task login_task) t o q :
  m !! t = None →
  pending_of s (<[t := LoginTask o q false]> m) =
  (pending_of s m + if decide (o = s) then 1 else 0)%nat.
Proof.
  intros Hm. unfold pending_of. case_decide as Ho.
  - rewrite map_filter_insert_True by done.
    rewrite map_size_insert_None; [lia|].
    apply map_lookup_filter_None. by left.
  - rewrite map_filter_insert_not'; [lia| |].
    + simpl. intros [? _]. done.
    + intros y Hy. congruence.
Qed.

Lemma pending_finish s (m : gmap task login_task) t o q :
  m !! t = Some (LoginTask o q false) →
  (pending_of s (<[t := LoginTask o q true]> m) + (if decide (o = s) then 1 else 0)
   = pending_of s m)%nat.
Proof.
  intros Hm. unfold pending_of.
  rewrite map_filter_insert_False by (simpl; intros [_ ?]; done).
  rewrite map_filter_delete.
  case_decide as Ho.
  - assert (is_Some (filter (λ kv : task * login_task,
                owner kv.2 = s ∧ finished kv.2 = false) m !! t)) as Hin.
    { exists (LoginTask o q false). by apply map_lookup_filter_Some. }
    rewrite map_size_delete_Some by done.
    apply map_size_ne_0_lookup_2 in Hin. lia.
  - rewrite map_size_delete_None; [lia|].
    apply map_lookup_filter_None. right. intros y Hy [? _]. by simplify_eq.
Qed.

Lemma to_come_advance rest : to_come (advance rest) = length rest.
Proof. by destruct rest. Qed.

Lemma fresh_task_new timeout st :
  consistent timeout st → tasks st !! fresh_task st = None.
Proof.
  intros Hc. destruct (tasks st !! fresh_task st) eqn:H; [|done].
  assert (is_Some (tasks st !! fresh_task st)) as H1 by eauto.
  apply (tasks_dense _ _ Hc) in H1. unfold fresh_task in H1. lia.
Qed.

Lemma promised_frame s st st' :
  sessions st' !! s = sessions st !! s → tasks st' = tasks st →
  promised s st' = promised s st.
Proof. intros Hs Ht. unfold promised, pending. by rewrite Hs, Ht. Qed.

Lemma promised_set_session s s0 y st x :
  sessions st !! s = Some x →
  (if decide (s0 = s)
   then (length (done y) + to_come (stat y) ≤ length (done x) + to_come (stat x))%nat
   else True) →
  (promised s (set_session s0 y st) ≤ promised s st)%nat.
Proof.
  intros Hs Hy. unfold promised, pending. rewrite set_session_lookup, Hs. simpl.
  case_decide; lia.
Qed.

Lemma promised_put_done s o item ph st x :
  sessions st !! s = Some x →
  promised s (put_done o item ph st) =
  (promised s st + if decide (o = s) then 1 else 0)%nat.
Proof.
  intros Hs. unfold put_done.
  destruct (sessions st !! o) as [x0|] eqn:Ho.
  - unfold promised, pending. rewrite set_session_lookup, Hs. simpl.
    case_decide as Heq.
    + subst. simplify_eq. simpl. rewrite length_app. simpl. lia.
    + lia.
  - case_decide; [congruence|]. lia.
Qed.

Lemma promised_finish_task s stA stB t o q x :
  sessions stB !! s = sessions stA !! s →
  tasks stB = <[t := LoginTask o q true]> (tasks stA) →
  tasks stA !! t = Some (LoginTask o q false) →
  sessions stA !! s = Some x →
  (promised s stB + (if decide (o = s) then 1 else 0) = promised s stA)%nat.
Proof.
  intros Hs Ht Hl Hx. unfold promised, pending. rewrite Hs, Hx, Ht.
  assert (Hf := pending_finish s (tasks stA) t o q Hl). lia.
Qed.

Lemma put_done_tasks o item ph st : tasks (put_done o item ph st) = tasks st.
Proof. unfold put_done. by destruct (sessions st !! o). Qed.

Lemma step_promised timeout e st st' s :
  consistent timeout st → step timeout e st = Some st' →
  is_Some (sessions st !! s) →
  (promised s st' ≤ promised s st)%nat.
Proof.
  intros Hc He [x Hs]. destruct e as [s0 accounts|s0|s0|t ok|s0| | |]; simpl in He.
  - destruct (sessions st !! s0) eqn:Hs0; [done|]. simplify_eq.
    eapply promised_set_session; [done|]. case_decide; [congruence|done].
  - unfold acquire in He.
    destruct (sessions st !! s0) as [[sx ph dn]|] eqn:Hs0; [|done].
    destruct sx as [todo w| | |]; try done.
    destruct todo as [|phone rest]; [done|]. destruct w; [done|].
    destruct (pool st !! phone) as [[t|c ref]|]; simplify_eq.
    + eapply promised_set_session; [done|]. case_decide; [|done].
      subst. simplify_eq. simpl. lia.
    + etrans; [eapply promised_set_session; [done|]|].
      * case_decide; [|done]. subst. simplify_eq. simpl.
        rewrite to_come_advance, length_app. simpl. lia.
      * by apply Nat.eq_le_incl, promised_frame.
    + unfold promised, pending. simpl. rewrite Hs.
      rewrite pending_insert_new by (by eapply fresh_task_new).
      destruct (decide (s0 = s)) as [Heq|Hne].
      * subst. rewrite lookup_insert_eq. simplify_eq. simpl.
        rewrite to_come_advance. lia.
      * rewrite lookup_insert_ne by done. rewrite Hs. lia.
  - unfold resume in He.
    destruct (sessions st !! s0) as [[sx ph dn]|] eqn:Hs0; [|done].
    destruct sx as [todo w| | |]; try done.
    destruct todo as [|phone rest]; [done|]. destruct w as [t|]; [|done].
    destruct (tasks st !! t) as [[o q []]|]; try done.
    destruct (pool st !! phone) as [[t'|c ref]|]; simplify_eq.
    + eapply promised_set_session; [done|]. case_decide; [|done].
      subst. simplify_eq. simpl. rewrite to_come_advance. lia.
    + etrans; [eapply promised_set_session; [done|]|].
      * case_decide; [|done]. subst. simplify_eq. simpl.
        rewrite to_come_advance, length_app. simpl. lia.
      * by apply Nat.eq_le_incl, promised_frame.
    + eapply promised_set_session; [done|]. case_decide; [|done].
      subst. simplify_eq. simpl. lia.
  - unfold loginer_done in He.
    destruct (tasks st !! t) as [[o q []]|] eqn:Ht; try done.
    destruct ok; simplify_eq.
    + set (st1 := set_pool <[q:=Entry (next_client st) 1]> st).
      assert (Hp := promised_put_done s o (Some (next_client st)) [q] st1 x Hs).
      assert (H1 : promised s st1 = promised s st) by (by apply promised_frame).
      destruct (put_done_session o (Some (next_client st)) [q] st1 s x Hs) as (x' & Hs' & _).
      set (stA := put_done o (Some (next_client st)) [q] st1) in *.
      assert (HB := promised_finish_task s stA
                (finish_task t o q
                   (State (pool stA) (sessions stA) (tasks stA) (logins stA)
                      (S (next_client st)) (stopped stA) (counter stA) (wd_todo stA)
                      (wd_cleaning stA) (streak stA)))
                t o q x' eq_refl eq_refl).
      unfold stA at 1 in HB. rewrite put_done_tasks in HB.
      specialize (HB Ht Hs'). lia.
    + assert (Hp := promised_put_done s o None [] st x Hs).
      destruct (put_done_session o None [] st s x Hs) as (x' & Hs' & _).
      set (stA := put_done o None [] st) in *.
      assert (HB := promised_finish_task s stA (finish_task t o q stA)
                t o q x' eq_refl eq_refl).
      unfold stA at 1 in HB. rewrite put_done_tasks in HB.
      specialize (HB Ht Hs'). lia.
  - unfold aexit in He.
    destruct (sessions st !! s0) as [[sx ph dn]|] eqn:Hs0; [|done].
    destruct sx; try done. simplify_eq.
    etrans; [eapply promised_set_session; [done|]|].
    + case_decide; [|done]. subst. simplify_eq. simpl. lia.
    + by apply Nat.eq_le_incl, promised_frame.
  - unfold wake in He. destruct (wd_todo st), (wd_cleaning st); simplify_eq.
    by apply Nat.eq_le_incl, promised_frame.
  - unfold visit in He. destruct (wd_todo st) as [|p rest], (wd_cleaning st); try done.
    destruct (pool st !! p) as [[t|c ref]|]; simplify_eq;
      try (by apply Nat.eq_le_incl, promised_frame).
    destruct (ref <=? 0); [|simplify_eq; by apply Nat.eq_le_incl, promised_frame].
    destruct (counter st !! p); [destruct (expired _ _)|]; simplify_eq;
      by apply Nat.eq_le_incl, promised_frame.
  - unfold clean_step in He. destruct (wd_cleaning st) as [p|]; [|done]. simplify_eq.
    apply Nat.eq_le_incl, promised_frame; simpl; unfold clean;
      destruct (pool st !! p) as [[t|c ref]|]; try done; by destruct (ref =? 0).
Qed.


Lemma step_sessions_some timeout e st st' s :
  step timeout e st = Some st' → is_Some (sessions st !! s) → is_Some (sessions st' !! s).
Proof.
  intros He [x Hs]. destruct (step_session _ _ _ _ _ _ He Hs) as (x' & ? & _). eauto.
Qed.

Lemma step_tasks timeout e st st' t lt' :
  step timeout e st = Some st' → tasks st' !! t = Some lt' →
  (∃ lt, tasks st !! t = Some lt ∧ owner lt = owner lt') ∨
  is_Some (sessions st !! owner lt').
Proof.
  intros He Ht. destruct e as [s0 accounts|s0|s0|t0 ok|s0| | |]; simpl in He.
  - destruct (sessions st !! s0) eqn:Hs0; [done|]. simplify_eq. left. eauto.
  - unfold acquire in He.
    destruct (sessions st !! s0) as [[sx ph dn]|] eqn:Hs0; [|done].
    destruct sx as [todo w| | |]; try done.
    destruct todo as [|phone rest]; [done|]. destruct w; [done|].
    destruct (pool st !! phone) as [[t1|c ref]|]; simplify_eq; [left; eauto..|].
    simpl in Ht. destruct (decide (fresh_task st = t)) as [Heq|Hne].
    + subst t. rewrite lookup_insert_eq in Ht. simplify_eq. simpl. right. eauto.
    + rewrite lookup_insert_ne in Ht by done. left. eauto.
  - unfold resume in He.
    destruct (sessions st !! s0) as [[sx ph dn]|] eqn:Hs0; [|done].
    destruct sx as [todo w| | |]; try done.
    destruct todo as [|phone rest]; [done|]. destruct w as [t1|]; [|done].
    destruct (tasks st !! t1) as [[o q []]|]; try done.
    destruct (pool st !! phone) as [[t'|c ref]|]; simplify_eq; left; eauto.
  - unfold loginer_done in He.
    destruct (tasks st !! t0) as [[o q []]|] eqn:Ht0; try done.
    destruct ok; simplify_eq; simpl in Ht; rewrite ?put_done_tasks in Ht.
    all: destruct (decide (t0 = t)) as [Heq|Hne];
      [subst t; rewrite lookup_insert_eq in Ht; simplify_eq; left; eauto
      |rewrite lookup_insert_ne in Ht by done; simpl in Ht; left; eauto].
  - unfold aexit in He.
    destruct (sessions st !! s0) as [[sx ph dn]|] eqn:Hs0; [|done].
    destruct sx; try done. simplify_eq. left. eauto.
  - unfold wake in He. destruct (wd_todo st), (wd_cleaning st); simplify_eq. left. eauto.
  - unfold visit in He. destruct (wd_todo st) as [|p rest], (wd_cleaning st); try done.
    destruct (pool st !! p) as [[t1|c ref]|]; simplify_eq; try (left; by eauto).
    destruct (ref <=? 0); [|simplify_eq; left; by eauto].
    destruct (counter st !! p); [destruct (expired _ _)|]; simplify_eq; left; eauto.
  - unfold clean_step in He. destruct (wd_cleaning st) as [p|]; [|done]. simplify_eq.
    simpl in Ht. left. exists lt'. split; [|done]. revert Ht. unfold clean.
    destruct (pool st !! p) as [[t1|c ref]|]; try done. by destruct (ref =? 0).
Qed.

Lemma step_owners timeout e st st' :
  owners_known st → step timeout e st = Some st' → owners_known st'.
Proof.
  intros Ho He t lt' Ht.
  destruct (step_tasks _ _ _ _ _ _ He Ht) as [(lt & Hl & Heq)|Hs].
  - rewrite <- Heq. eapply step_sessions_some; [done|]. by eapply Ho.
  - by eapply step_sessions_some.
Qed.

Lemma run_owners timeout es st st' :
  owners_known st → run timeout es st = Some st' → owners_known st'.
Proof.
  revert st. induction es as [|e es IH]; intros st Ho Hr; simpl in Hr; [by simplify_eq|].
  destruct (step timeout e st) as [st1|] eqn:He; [|done].
  eapply IH; [|done]. by eapply step_owners.
Qed.

Lemma reachable_owners timeout st : reachable timeout st → owners_known st.
Proof. intros [es Hr]. eapply run_owners; [|done]. intros t lt H. done. Qed.

Lemma pending_unknown s st :
  owners_known st → sessions st !! s = None → pending s st = O.
Proof.
  intros Ho Hs. unfold pending, pending_of.
  rewrite map_empty_filter_2; [apply map_size_empty|].
  intros t lt Ht [Heq _]. simpl in Heq. subst s.
  apply Ho in Ht as [? ?]. congruence.
Qed.

Lemma run_promised timeout es st st' s :
  consistent timeout st → is_Some (sessions st !! s) →
  run timeout es st = Some st' → (promised s st' ≤ promised s st)%nat.
Proof.
  revert st. induction es as [|e es IH]; intros st Hc Hs Hr; simpl in Hr.
  - by simplify_eq.
  - destruct (step timeout e st) as [st1|] eqn:He; [|done].
    etrans; [eapply IH; [by eapply consistent_step|by eapply step_sessions_some|done]|].
    by eapply step_promised.
Qed.

Lemma aiter_nil n : aiter n [] = ([], n).
Proof. by destruct n. Qed.

Lemma aiter_short n queue :
  (length queue ≤ n)%nat →
  aiter n queue = (omap id queue, (n - length queue)%nat).
Proof.
  revert queue. induction n as [|n IH]; intros [|[c|] queue] Hl; simpl in *; try done.
  - lia.
  - lia.
  - rewrite IH by lia. done.
  - rewrite IH by lia. done.
Qed.

(** X10.  An instance never has more items put on its [done] queue than it
    has accounts.  So an iteration over the instance yields the clients that
    are on the queue, in order, and is left with one iteration for each item
    still to come; and once an iteration has taken as many items as there are
    accounts, a new iteration over the same instance finds nothing: it yields
    no client and, when there is an account, it stays suspended in
    [done.get()] with all its iterations to go. *)
Theorem done_within_accounts timeout st s accounts st0 es st' x :
  reachable timeout st →
  step timeout (New s accounts) st = Some st0 →
  run timeout es st0 = Some st' →
  sessions st' !! s = Some x →
  let n := length accounts in
  (length (done x) ≤ n)%nat ∧
  aiter n (done x) = (omap id (done x), (n - length (done x))%nat) ∧
  aiter n (drop n (done x)) = ([], n).
Proof.
  intros Hre He Hr Hs n. subst n.
  assert (Hc := reachable_consistent _ _ Hre).
  assert (Ho := reachable_owners _ _ Hre).
  assert (Hc0 := consistent_step _ _ _ _ Hc He).
  simpl in He. destruct (sessions st !! s) eqn:Hs0; [done|]. simplify_eq.
  assert (H0 : promised s (set_session s (Session (advance accounts) [] []) st)
               = length accounts).
  { unfold promised, pending. rewrite set_session_lookup, decide_True by done. simpl.
    rewrite to_come_advance. fold (pending s st). rewrite pending_unknown by done. lia. }
  assert (H1 := run_promised _ _ _ _ s Hc0 ltac:(rewrite set_session_lookup, decide_True by done; eauto) Hr).
  rewrite H0 in H1. unfold promised in H1. rewrite Hs in H1.
  assert (Hle : (length (done x) ≤ length accounts)%nat) by lia.
  split_and!; [done|by apply aiter_short|].
  rewrite drop_ge by done. apply aiter_nil.
Qed.

Lemma done_within_accounts_witness :
  ∃ st' x,
    run 120 [Acquire 0%nat; LoginDone 0%nat true; Acquire 0%nat; LoginDone 1%nat false]
      (set_session 0%nat (Session (advance ["A"; "B"]%string) [] []) initial) = Some st' ∧
    sessions st' !! 0%nat = Some x ∧
    (length (done x) ≤ 2)%nat ∧
    aiter 2 (done x) = (omap id (done x), (2 - length (done x))%nat) ∧
    aiter 2 (drop 2 (done x)) = ([], 2%nat).
Proof.
  eexists _, _. split; [reflexivity|]. split; [reflexivity|].
  refine (done_within_accounts 120 initial 0%nat ["A"; "B"]%string _
            [Acquire 0%nat; LoginDone 0%nat true; Acquire 0%nat; LoginDone 1%nat false]
            _ _ (ex_intro _ [] eq_refl) eq_refl eq_refl eq_refl).
Defined.



(** *** Entries in use *)






(** *** [clean_all] *)









End PoolMore.

(** ** Relay requests: rate limits, cleanup, the caches and authorisation *)

Section LinkMore.
Import Link.

(** *** Rate limits and what a request leaves behind *)

Lemma attempt_rate_limited instance rq env r w :
  rate_limited env = true →
  attempt instance rq env r w =
  (Continue,
   World (cache w) (clock w + flood_seconds env)
         (filter (λ x, x ≠ next_handler w) (handlers w ++ [next_handler w]))
         (S (next_handler w))
         (filter (λ m, m ∉ []) (transcript w)) (next_message w) (outbound w)
         (history w ++ [EndFloodWait (flood_seconds env)])
         (log w ++ [InfoFloodWait (flood_seconds env)])).
Proof.
  unfold rate_limited, flood_seconds, attempt. simpl.
  destruct (send env); try done.
Qed.

Lemma attempts_from_rate_limited instance rq envs n r w :
  (∀ i, (r ≤ i < r + n)%nat → rate_limited (envs i) = true) →
  let res := attempts_from instance rq envs n r w in
  let waits := map (λ i, flood_seconds (envs i)) (seq r n) in
  res.1 = LoopEnded ∧
  cache res.2 = cache w ∧
  clock res.2 = clock w + foldr Z.add 0 waits ∧
  transcript res.2 = transcript w ∧
  outbound res.2 = outbound w ∧
  history res.2 = history w ++ map EndFloodWait waits ∧
  log res.2 = log w ++ map InfoFloodWait waits.
Proof.
  revert r w. induction n as [|n IH]; intros r w Hall; cbv zeta.
  - simpl. rewrite !app_nil_r. split_and!; try done. lia.
  - rewrite attempts_from_unfold.
    rewrite attempt_rate_limited by (apply Hall; lia). cbn [fst snd].
    set (w1 := World _ _ _ _ _ _ _ _ _).
    destruct (IH (S r) w1) as (H1 & H2 & H3 & H4 & H5 & H6 & H7);
      [intros i Hi; apply Hall; lia|].
    rewrite H1, H2, H3, H4, H5, H6, H7. subst w1. cbn [cache clock transcript outbound history log].
    rewrite filter_not_in_nil. cbn [seq map foldr].
    split_and!; try done.
    + lia.
    + by rewrite <- app_assoc.
    + by rewrite <- app_assoc.
Qed.




(** X14.  When there is no cached reply and every attempt is rate limited,
    [post] runs out of attempts and returns [None], also with [fail=True]:
    no error is raised or logged; nothing is sent, transcript and cache are
    as before, the clock has advanced by the waits, and the log has one
    rate-limit notice for each attempt. *)
Theorem post_rate_limited_gives_up instance rq envs w :
  cache_get (cache_key instance rq) w = None →
  (∀ r, (r < retries rq)%nat → rate_limited (envs r) = true) →
  let res := post instance rq envs w in
  let waits := map (λ r, flood_seconds (envs r)) (seq 0 (retries rq)) in
  res.1 = LoopEnded ∧
  outcome_of rq res.1 = Returns None ∧
  outbound res.2 = outbound w ∧
  transcript res.2 = transcript w ∧
  cache res.2 = cache w ∧
  clock res.2 = clock w + foldr Z.add 0 waits ∧
  attempts_since w res.2 = map EndFloodWait waits ∧
  log res.2 = log w ++ map InfoFloodWait waits.
Proof.
  intros Hmiss Hall res waits. subst res waits. unfold post. rewrite Hmiss.
  destruct (attempts_from_rate_limited instance rq envs (retries rq) 0 w) as
    (H1 & H2 & H3 & H4 & H5 & H6 & H7); [intros i Hi; apply Hall; lia|].
  rewrite H1. split_and!; try done. by apply attempts_since_app.
Qed.

Lemma post_rate_limited_gives_up_witness :
  let rq := default_request "/auth x" true in
  let envs := λ _ : nat, AttemptEnv (SendFloodWait 5) [] 0 in
  let res := post "i" rq envs empty_world in
  let waits := map (λ r, flood_seconds (envs r)) (seq 0 (retries rq)) in
  res.1 = LoopEnded ∧
  outcome_of rq res.1 = Returns None ∧
  outbound res.2 = outbound empty_world ∧
  transcript res.2 = transcript empty_world ∧
  cache res.2 = cache empty_world ∧
  clock res.2 = clock empty_world + foldr Z.add 0 waits ∧
  attempts_since empty_world res.2 = map EndFloodWait waits ∧
  log res.2 = log empty_world ++ map InfoFloodWait waits.
Proof.
  intros rq envs.
  apply (post_rate_limited_gives_up "i" rq envs empty_world).
  - reflexivity.
  - intros r _. reflexivity.
Defined.




(** *** The cache of [post] and the requests built on it *)


















(** *** Authorisation *)

Lemma auth_decided instance me service lf ins envs s v :
  verdict me service s = Some v → agrees me service s →
  let res := auth instance me service lf ins envs s in
  res.1 = v ∧ world_of res.2 = world_of s ∧
  verdict me service res.2 = Some v ∧ agrees me service res.2.
Proof.
  intros Hv Ha. cbv zeta. unfold auth.
  destruct (flag_get (auth_key service me) s) as [b|] eqn:Hf.
  - simpl. split_and!; try done. unfold flag_get in Hf.
    destruct (flags s !! auth_key service me) as [[b' e]|] eqn:Hk; [|done].
    destruct (clock (world_of s) <? e); [|done]. simplify_eq.
    by eapply Ha.
  - rewrite Hv. simpl. split_and!; try done.
    intros key b e v' -> Hk Hv'. simpl in Hk. rewrite lookup_insert_eq in Hk.
    unfold verdict in *. simpl in Hv'. congruence.
Qed.

Lemma later_decided d me service s v :
  verdict me service s = Some v → agrees me service s →
  verdict me service (later d s) = Some v ∧ agrees me service (later d s).
Proof. intros Hv Ha. split; [done|]. intros key b e v' -> Hk Hv'. by eapply Ha. Qed.

Lemma auth_agrees instance me service lf ins envs s :
  agrees me service s → agrees me service (auth instance me service lf ins envs s).2.
Proof.
  intros Ha. unfold auth.
  destruct (flag_get (auth_key service me) s) as [b|] eqn:Hf; [done|].
  destruct (verdict me service s) as [v|] eqn:Hv.
  - simpl. intros key b e v' -> Hk Hv'. simpl in Hk. rewrite lookup_insert_eq in Hk.
    unfold verdict in *. simpl in Hv'. congruence.
  - destruct lf; simpl.
    + destruct (post instance (auth_request instance service true) envs (world_of s))
        as [f w'].
      destruct (outcome_of (auth_request instance service true) f) as [r|e].
      * intros key b ex v' -> Hk Hv'. simpl in Hk. rewrite lookup_insert_eq in Hk.
        unfold verdict in Hv'. simpl in Hv'.
        rewrite lookup_insert_eq in Hv'. simpl in Hv'.
        rewrite lookup_insert_eq in Hv'. congruence.
      * intros key b ex v' -> Hk Hv'. simpl in Hk. rewrite lookup_insert_eq in Hk.
        unfold verdict in Hv'. simpl in Hv'.
        rewrite lookup_insert_eq in Hv'. simpl in Hv'.
        rewrite lookup_insert_eq in Hv'. congruence.
    + destruct (post instance (auth_request instance service false) envs (world_of s))
        as [f w'].
      intros key b ex v' -> Hk Hv'. exfalso. revert Hv'.
      unfold verdict in *.
      by destruct (match results f with Some r => truthy r | None => false end);
        simpl; rewrite Hv.
Qed.

(** X21.  The cached authorisation always agrees with the verdict recorded
    in [authed_services] (calls of [auth] keep it so); and once a verdict is
    recorded for a user and a service, every later call of [auth] for them
    returns that verdict, whenever it is made and with whatever arguments,
    and sends nothing: a refusal is final for the life of the process. *)
Theorem auth_verdict_is_final instance me service calls s :
  agrees me service s →
  let res := auth_calls instance me service calls s in
  agrees me service res.2 ∧
  ∀ v, verdict me service s = Some v →
       Forall (λ b, b = v) res.1 ∧
       outbound (world_of res.2) = outbound (world_of s) ∧
       verdict me service res.2 = Some v.
Proof.
  revert s. induction calls as [|c calls IH]; intros s Ha; cbv zeta; simpl.
  - done.
  - assert (Ha0 : agrees me service (later (after c) s)).
    { intros key b e v' -> Hk Hv'. by eapply Ha. }
    assert (Ha1 := auth_agrees instance me service (with_log_func c)
                     (says_insufficient c) (replies c) _ Ha0).
    assert (Hd := λ v Hv, auth_decided instance me service (with_log_func c)
                     (says_insufficient c) (replies c) (later (after c) s) v Hv Ha0).
    destruct (auth instance me service (with_log_func c) (says_insufficient c)
                (replies c) (later (after c) s)) as [b s1].
    simpl in *. destruct (IH s1 Ha1) as [H5 H6].
    destruct (auth_calls instance me service calls s1) as [bs s2]. simpl in *.
    split; [done|]. intros v Hv.
    destruct (Hd v Hv) as (H1 & H2 & H3 & H4).
    destruct (H6 v H3) as (H7 & H8 & H9).
    split_and!; [by constructor| |done]. rewrite H8, H2. done.
Qed.

Lemma auth_verdict_is_final_witness :
  let s := Store empty_world ∅ {[7%nat := {["x"%string := false]}]} ∅ in
  let calls := [AuthCall 10 true false silence; AuthCall 4000 false false silence] in
  let res := auth_calls "i" 7%nat "x" calls s in
  res.1 = [false; false] ∧ outbound (world_of res.2) = 0%nat.
Proof.
  intros s calls res.
  assert (Ha : agrees 7%nat "x" s).
  { intros key b e v -> Hk _. discriminate Hk. }
  destruct (auth_verdict_is_final "i" 7%nat "x" calls s Ha) as [_ H].
  destruct (H false eq_refl) as (H1 & H2 & _).
  split; [reflexivity|exact H2].
Defined.

(** X22.  With a [log_func], and neither a cached authorisation nor a
    recorded verdict, [auth] records what it returns as the verdict and caches
    it.  It returns [False] when all three attempts time out, and [True] when
    all three attempts are rate limited: [post] then returns without raising,
    which is all that [auth] checks. *)
Theorem auth_with_log_func_decides instance me service ins envs s :
  flag_get (auth_key service me) s = None →
  verdict me service s = None →
  let rq := auth_request instance service true in
  let res := auth instance me service true ins envs s in
  verdict me service res.2 = Some res.1 ∧
  flag_get (auth_key service me) res.2 = Some res.1 ∧
  (cache_get (cache_key instance rq) (world_of s) = None →
   (∀ r, (r < 3)%nat → times_out rq (envs r)) → res.1 = false) ∧
  (cache_get (cache_key instance rq) (world_of s) = None →
   (∀ r, (r < 3)%nat → rate_limited (envs r) = true) → res.1 = true).
Proof.
  intros Hf Hv rq res. subst res. unfold auth. rewrite Hf, Hv. simpl. fold rq.
  split_and!.
  - destruct (post instance rq envs (world_of s)) as [f w'].
    destruct (outcome_of rq f); unfold verdict; simpl;
      rewrite lookup_insert_eq; simpl; by rewrite lookup_insert_eq.
  - destruct (post instance rq envs (world_of s)) as [f w'].
    destruct (outcome_of rq f); unfold flag_get; simpl;
      rewrite lookup_insert_eq;
      match goal with |- context [?a <? ?a + 3600] =>
        by destruct (Z.ltb_spec a (a + 3600)); [|lia] end.
  - intros Hmiss Hall.
    destruct (attempts_from_all_time_out instance rq envs 2 0 (world_of s) eq_refl Hall)
      as (H1 & _).
    unfold post. rewrite Hmiss. change (retries rq) with 3%nat.
    destruct (attempts_from instance rq envs 3 0 (world_of s)) as [f w'].
    simpl in H1. subst f. done.
  - intros Hmiss Hall.
    destruct (attempts_from_rate_limited instance rq envs 3 0 (world_of s)) as (H1 & _).
    { intros i Hi. apply Hall. lia. }
    unfold post. rewrite Hmiss. change (retries rq) with 3%nat.
    destruct (attempts_from instance rq envs 3 0 (world_of s)) as [f w'].
    simpl in H1. subst f. done.
Qed.

Lemma auth_with_log_func_decides_witness :
  let s := Store empty_world ∅ ∅ ∅ in
  let envs := λ _ : nat, AttemptEnv (SendFloodWait 5) [] 0 in
  let res := auth "i" 7%nat "x" true false envs s in
  verdict 7%nat "x" res.2 = Some res.1 ∧ res.1 = true.
Proof.
  intros s envs res.
  destruct (auth_with_log_func_decides "i" 7%nat "x" false envs s eq_refl eq_refl)
    as (H1 & _ & _ & H2).
  split; [exact H1|]. apply H2; [reflexivity|]. intros r _. reflexivity.
Defined.

End LinkMore.

(** ** Messager: sending through the session *)

Section MessagerFacts.
Import ClientsSession Messager.

Lemma tries_sends outcome n retry :
  ((tries outcome n retry).2 ≤ n)%nat.
Proof.
  revert retry. induction n as [|n IH]; intros retry; simpl; [lia|].
  specialize (IH (S retry)).
  destruct (outcome retry); simpl; try lia.
  - destruct (tries outcome n (S retry)) as [[b t] k]. simpl in *. lia.
  - destruct (tries outcome n (S retry)) as [[b t] k]. simpl in *. lia.
  - destruct (retry =? 2)%nat; simpl; [lia|].
    destruct (tries outcome n (S retry)) as [[b t] k]. simpl in *. lia.
Qed.

Lemma tries_true outcome n retry :
  (tries outcome n retry).1.1 = Some true →
  ∃ i, (retry ≤ i < retry + n)%nat ∧ outcome i = Delivered.
Proof.
  revert retry. induction n as [|n IH]; intros retry; simpl; [done|].
  specialize (IH (S retry)).
  destruct (outcome retry) eqn:Ho; simpl.
  - intros _. exists retry. split; [lia|done].
  - destruct (tries outcome n (S retry)) as [[b t] k]. simpl in *.
    intros H. destruct (IH H) as (i & Hi & Hd). exists i. split; [lia|done].
  - done.
  - destruct (tries outcome n (S retry)) as [[b t] k]. simpl in *.
    intros H. destruct (IH H) as (i & Hi & Hd). exists i. split; [lia|done].
  - destruct (retry =? 2)%nat; simpl; [done|].
    destruct (tries outcome n (S retry)) as [[b t] k]. simpl in *.
    intros H. destruct (IH H) as (i & Hi & Hd). exists i. split; [lia|done].
Qed.

Lemma each_client_sends outcome cs :
  ((each_client outcome cs).2 ≤ 3 * length cs)%nat.
Proof.
  induction cs as [|c cs IH]; [simpl; lia|].
  cbn [each_client length].
  pose proof (tries_sends (outcome c) 3 0) as Ht.
  destruct (tries (outcome c) 3 0) as [[[b|] t] k]; cbn [fst snd] in *; [lia|].
  destruct (each_client outcome cs) as [[b' t'] k']. cbn [fst snd] in *. lia.
Qed.

Lemma each_client_true outcome cs :
  (each_client outcome cs).1.1 = Some true →
  ∃ c i, c ∈ cs ∧ (i < 3)%nat ∧ outcome c i = Delivered.
Proof.
  induction cs as [|c cs IH]; [done|].
  cbn [each_client].
  pose proof (tries_true (outcome c) 3 0) as Ht.
  destruct (tries (outcome c) 3 0) as [[[b|] t] k]; cbn [fst snd] in *.
  - intros H. destruct (Ht H) as (i & Hi & Hd). exists c, i.
    split_and!; [by left|lia|done].
  - destruct (each_client outcome cs) as [[b' t'] k']. cbn [fst snd] in *.
    intros H. destruct (IH H) as (c' & i & Hc & Hi & Hd). exists c', i.
    split_and!; [by right|done..].
Qed.

Lemma aiter_clients n queue c :
  c ∈ (aiter n queue).1 → Some c ∈ take n queue.
Proof.
  revert queue. induction n as [|n IH]; intros queue; simpl.
  - intros H. by apply elem_of_nil in H.
  - destruct queue as [|[c0|] queue]; simpl.
    + intros H. by apply elem_of_nil in H.
    + specialize (IH queue). destruct (aiter n queue) as [cs k]. simpl in *.
      intros [->|H]%elem_of_cons; [by left|]. right. by apply IH.
    + intros H. right. by apply IH.
Qed.

Lemma aiter_length n queue :
  (length (aiter n queue).1 ≤ n)%nat.
Proof.
  revert queue. induction n as [|n IH]; intros queue; simpl; [lia|].
  destruct queue as [|[c0|] queue]; simpl; [lia| |].
  - specialize (IH queue). destruct (aiter n queue) as [cs k]. simpl in *. lia.
  - specialize (IH queue). lia.
Qed.

(** X23.  [send_message] sends at most three times for each account of the
    session; it returns [True] only when one of the sends, by a client taken
    from the queue, was delivered; and on a session with an account whose
    queue is empty it sends nothing and stays suspended in the iteration.
    When the three tries of the only client are rate limited, it sleeps the
    first two waits, not the third, and returns [False]. *)
Theorem send_message_attempts n queue outcome :
  let res := send_message n queue outcome in
  (res.2 ≤ 3 * n)%nat ∧
  (res.1.1 = Some true →
     ∃ c i, Some c ∈ take n queue ∧ (i < 3)%nat ∧ outcome c i = Delivered) ∧
  (queue = [] → n ≠ O → res = (None, 0, O)) ∧
  (∀ c s0 s1 s2, n = 1%nat → queue = [Some c] →
     outcome c 0%nat = FloodWait s0 → outcome c 1%nat = FloodWait s1 →
     outcome c 2%nat = FloodWait s2 →
     res = (Some false, s0 + s1, 3%nat)).
Proof.
  intros res. subst res. unfold send_message.
  pose proof (aiter_length n queue) as Hl.
  pose proof (λ c, aiter_clients n queue c) as Hc.
  destruct (aiter n queue) as [cs rest] eqn:Ha. cbn [fst snd] in *.
  pose proof (each_client_sends outcome cs) as Hs.
  pose proof (each_client_true outcome cs) as Ht.
  split_and!.
  - destruct (each_client outcome cs) as [[[b|] t] k]; cbn [fst snd] in *; lia.
  - destruct (each_client outcome cs) as [[[b|] t] k]; cbn [fst snd] in *.
    + intros H. destruct (Ht H) as (c & i & Hin & Hi & Hd). exists c, i. auto.
    + by destruct rest.
  - intros -> Hn. destruct n; [done|]. simpl in Ha. by simplify_eq.
  - intros c s0 s1 s2 -> -> H0 H1 H2. simpl in Ha. simplify_eq.
    simpl. rewrite H0, H1, H2. simpl. do 2 f_equal. lia.
Qed.

End MessagerFacts.
